(** * imgconv: a shallow embedding of [imgconv.py]

    The module converts HEIF images and assembles images into one PDF.
    This development embeds its four public functions
    ([has_extension], [load_heif], [images_to_pdf], [adjust_widths])
    and proves the properties stated for them.

    Conventions of the embedding
    - Python [str] values are [string]s of 8-bit characters, and
      [str.lower] acts on the ASCII letters; file names outside ASCII are
      outside the model.
    - Python [int] is [Z]; Python [float] is IEEE binary64, taken from
      the [SpecFloat] specification of the standard library
      ([prec = 53], [emax = 1024]).
    - Exceptions are values of [exn]; code that can raise lives in the
      monad [M], which threads the [world] (the heap of PIL image objects
      and the trace of external calls).
    - Pillow and pyheif are external: what they decide (whether a file
      decodes, whether an encoder accepts a call) is a field of
      [Externals]; what the program passes to them is modelled exactly. *)

From Stdlib Require Import ZArith Ascii String List Bool Lia.
From Stdlib Require Import Floats.SpecFloat.
From stdpp Require Import base option list gmap strings.

Local Open Scope Z_scope.

(** ** Python strings *)

Module PyStr.

(** ASCII range of [str.isupper] / [str.lower]. *)
Definition is_upper (c : ascii) : bool :=
  let n := N_of_ascii c in ((65 <=? n) && (n <=? 90))%N.

Definition lower_char (c : ascii) : ascii :=
  if is_upper c then ascii_of_N (N_of_ascii c + 32) else c.

(** [s.lower()] *)
Fixpoint lower (s : string) : string :=
  match s with
  | EmptyString => EmptyString
  | String c s' => String (lower_char c) (lower s')
  end.


(** the slice [s[n:]] *)
Fixpoint drop (n : nat) (s : string) : string :=
  match n, s with
  | O, _ => s
  | S _, EmptyString => EmptyString
  | S n', String _ s' => drop n' s'
  end.

(** [s.endswith(suffix)]: the tail of [s] of the length of [suffix]
    is compared with [suffix]; a longer [suffix] never matches. *)
Definition endswith (s suffix : string) : bool :=
  let n := String.length s in
  let k := String.length suffix in
  (k <=? n)%nat && String.eqb (drop (n - k) s) suffix.

End PyStr.

(** ** [has_extension] *)

(** [any(filename.endswith(ext) for ext in exts)] after
    [filename = filename.lower()]. *)
Definition has_extension (filename : string) (exts : list string) : bool :=
  let filename := PyStr.lower filename in
  existsb (fun ext => PyStr.endswith filename ext) exts.

(** ** Exceptions *)

(** The exception classes that the module raises or that the operations
    it uses raise.  [OSError] stands for a failure inside pyheif or
    Pillow (missing file, corrupt data, failed write); [SystemError] is
    the model's answer to a reference that names no object, which no
    Python program can build. *)
Inductive exn : Type :=
| ValueError (msg : string)
| TypeError (msg : string)
| NameError (msg : string)
| IndexError (msg : string)
| ZeroDivisionError (msg : string)
| OverflowError (msg : string)
| OSError (msg : string)
| SystemError (msg : string).

(** The configuration errors of the module are [ValueError] and
    [TypeError]: the classes its own [raise] statements name. *)
Definition is_usage_error (e : exn) : bool :=
  match e with
  | ValueError _ | TypeError _ => true
  | _ => false
  end.

Inductive result (A : Type) : Type :=
| Ok (a : A)
| Raise (e : exn).
Arguments Ok {A} a.
Arguments Raise {A} e.

(** ** Python floats *)

Module PyFloat.

Definition prec : Z := 53.
Definition emax : Z := 1024.

Abbreviation float := spec_float.

(** [float(i)], the conversion that [int * float] applies to its left
    operand: correctly rounded, [OverflowError] beyond the range. *)
Definition of_int (i : Z) : result float :=
  match binary_normalize prec emax i 0 false with
  | S754_infinity _ => Raise (OverflowError "int too large to convert to float")
  | x => Ok x
  end.

(** [a / b] on two ints: the correctly rounded quotient. *)
Definition int_truediv (a b : Z) : result float :=
  match b with
  | Z0 => Raise (ZeroDivisionError "division by zero")
  | _ =>
    match a with
    | Z0 => Ok (S754_zero (b <? 0))
    | _ =>
      let '(mz, ez, lz) := SFdiv_core_binary prec emax (Z.abs a) 0 (Z.abs b) 0 in
      match binary_round_aux prec emax (xorb (a <? 0) (b <? 0)) mz ez lz with
      | S754_infinity _ =>
          Raise (OverflowError "integer division result too large for a float")
      | x => Ok x
      end
    end
  end.

(** [i * x] with [i] an int and [x] a float. *)
Definition int_mul (i : Z) (x : float) : result float :=
  match of_int i with
  | Ok y => Ok (SFmul prec emax y x)
  | Raise e => Raise e
  end.

(** [m * 2^e] rounded to the nearest integer, ties to the even one. *)
Definition round_half_even (m e : Z) : Z :=
  if 0 <=? e then m * 2 ^ e
  else
    let d := 2 ^ (- e) in
    let q := m / d in
    match (2 * (m mod d)) ?= d with
    | Lt => q
    | Gt => q + 1
    | Eq => if Z.even q then q else q + 1
    end.

(** [round(x)] with one argument: an int, ties to even. *)
Definition round (x : float) : result Z :=
  match x with
  | S754_nan => Raise (ValueError "cannot convert float NaN to integer")
  | S754_infinity _ => Raise (OverflowError "cannot convert float infinity to integer")
  | S754_zero _ => Ok 0
  | S754_finite s m e => Ok (cond_Zopp s (round_half_even (Zpos m) e))
  end.

(** The float [1.0]. *)
Definition one : float := S754_finite false 4503599627370496 (-52).

(** The largest exponent that rounding a mantissa below [2^D] at
    exponent [e] can give. *)
Definition rounded_exponent (D e : Z) : Z :=
  let e1 := Z.max e (Z.max (D + e - 53) (-1074)) in
  Z.max e1 (Z.max (D + e1 - 53) (-1074)).

(** A float that is [0.0] or positive and finite, with a mantissa
    below [2^D] and an exponent of at most [E]. *)
Definition small_float (D E : Z) (x : float) : Prop :=
  x = S754_zero false \/
  exists p e, x = S754_finite false p e /\ Z.pos p < 2 ^ D /\ e <= E.

End PyFloat.

(** ** Images, values and the world *)

(** [PIL.Image.Resampling] *)
Inductive resampling : Type :=
| NEAREST | LANCZOS | BILINEAR | BICUBIC | BOX | HAMMING.

(** Pixel contents, kept symbolic: where the pixels came from and what
    Pillow was asked to do to them. *)
Inductive pixels : Type :=
| FileData (file : string)
| RawData (data : list Byte.byte) (decoder_name raw_mode : string) (stride : Z)
| Resized (src : pixels) (size : Z * Z) (resample : resampling).

(** A [PIL.Image.Image]: [mode], [size] = (width, height), pixels. *)
Record image : Type := { im_mode : string; im_size : Z * Z; im_data : pixels }.

Definition width (im : image) : Z := fst (im_size im).
Definition height (im : image) : Z := snd (im_size im).

(** A width or height that a Pillow image can have: Pillow keeps both
    in a C [int]. *)
Definition pil_dimension (z : Z) : Prop := 0 <= z < 2 ^ 31.

(** What [im.resize(size, resample)] returns: the mode is kept, the
    size is the requested one. *)
Definition resized_image (im : image) (size : Z * Z) (resample : resampling) : image :=
  {| im_mode := im_mode im; im_size := size;
     im_data := Resized (im_data im) size resample |}.

(** Image objects are named by their address in the heap. *)
Definition ref : Type := nat.

(** Values bound to names and passed as keyword arguments; [VObject]
    is an object of which only the name matters here. *)
Inductive pyval : Type :=
| VNone
| VBool (b : bool)
| VInt (i : Z)
| VStr (s : string)
| VImages (l : list ref)
| VObject (name : string).

(** A call [im.save(fp, format, **params)]. *)
Record save_call : Type :=
  { sv_image : ref; sv_fp : string; sv_format : option string;
    sv_params : gmap string pyval }.

(** External calls, in the order they happen. *)
Inductive event : Type :=
| EvHeifRead (file : string)
| EvOpen (file : string)
| EvClose (im : ref)
| EvSave (call : save_call).

(** [exit_stack] holds the images entered in the running
    [contextlib.ExitStack], the last entered first. *)
Record world : Type :=
  { heap : list image; trace : list event; exit_stack : list ref }.

(** What [pyheif.read] returns. *)
Record heif_file : Type :=
  { hf_mode : string; hf_size : Z * Z; hf_data : list Byte.byte; hf_stride : Z }.

(** The decisions of the external libraries.  Each [_error] field says
    whether the library raises on these arguments. *)
Class Externals : Type :=
  { pyheif_read : string -> result heif_file;
    pil_frombytes_error :
      string -> Z * Z -> list Byte.byte -> string -> string -> Z -> option exn;
    pil_open : string -> result image;
    pil_resize_error : image -> Z * Z -> resampling -> option exn;
    pil_save_error : world -> save_call -> option exn }.

(** ** The monad of effectful code *)

Definition M (A : Type) : Type := world -> result A * world.

Definition ret {A} (a : A) : M A := fun w => (Ok a, w).

Definition raise {A} (e : exn) : M A := fun w => (Raise e, w).

Definition bind {A B} (m : M A) (k : A -> M B) : M B :=
  fun w =>
    match m w with
    | (Ok a, w') => k a w'
    | (Raise e, w') => (Raise e, w')
    end.

Definition lift {A} (r : result A) : M A := fun w => (r, w).

Declare Scope py_scope.
Delimit Scope py_scope with py.
Notation "'let*' x ':=' m 'in' k" := (bind m (fun x => k))
  (at level 10, x name, m at level 100, k at level 200) : py_scope.
Local Open Scope py_scope.

Definition emit (e : event) : M unit :=
  fun w => (Ok tt, {| heap := heap w; trace := trace w ++ [e];
                      exit_stack := exit_stack w |}).

(** A new image object; its reference is the next free address. *)
Definition alloc (im : image) : M ref :=
  fun w => (Ok (length (heap w)),
            {| heap := heap w ++ [im]; trace := trace w;
               exit_stack := exit_stack w |}).

Definition deref (r : ref) : M image :=
  fun w =>
    match heap w !! r with
    | Some im => (Ok im, w)
    | None => (Raise (SystemError "no such object"), w)
    end.

(** ** Name lookup and keyword arguments *)

(** The names bound at the top level of [imgconv.py]. *)
Definition module_globals : list string :=
  ["contextlib"; "os"; "textwrap"; "PIL"; "pyheif"; "__all__";
   "has_extension"; "load_heif"; "images_to_pdf"; "adjust_widths"; "main"].

(** Loading a name inside a function: the locals of the frame, then the
    globals of the module, then the builtins.  The one name that the
    code below loads this way is [keys], and no builtin has that name,
    so the builtins are left out. *)
Definition load_name (locals : list (string * pyval)) (name : string) : result pyval :=
  match find (fun kv => String.eqb (fst kv) name) locals with
  | Some kv => Ok (snd kv)
  | None =>
    if existsb (String.eqb name) module_globals then Ok (VObject name)
    else Raise (NameError ("name '" +:+ name +:+ "' is not defined"))
  end.

(** [repr] on the values that can be formatted. *)
Definition repr (v : pyval) : string :=
  match v with
  | VNone => "None"
  | VBool true => "True"
  | VBool false => "False"
  | VStr s => "'" +:+ s +:+ "'"
  | VInt _ => "<int>"
  | VImages _ => "<list>"
  | VObject name => "<" +:+ name +:+ ">"
  end.

(** A call [f(k1=v1, ..., **kwargs)]: a key given twice is a
    [TypeError]. *)
Fixpoint merge_keywords (explicit : list (string * pyval)) (kwargs : gmap string pyval)
  : result (gmap string pyval) :=
  match explicit with
  | [] => Ok kwargs
  | (k, v) :: rest =>
    match merge_keywords rest kwargs with
    | Raise e => Raise e
    | Ok params =>
      match params !! k with
      | Some _ =>
          Raise (TypeError ("got multiple values for keyword argument '" +:+ k +:+ "'"))
      | None => Ok (<[k := v]> params)
      end
    end
  end.

(** ** Pillow: the encoder of a [save] call *)

Module Pillow.

(** Part of [PIL.Image.registered_extensions()]. *)
Definition EXTENSION : list (string * string) :=
  [(".pdf", "PDF"); (".png", "PNG"); (".jpg", "JPEG"); (".jpeg", "JPEG");
   (".gif", "GIF"); (".bmp", "BMP"); (".tif", "TIFF"); (".tiff", "TIFF");
   (".webp", "WEBP")].

(** The part of a name after its last ["/"]. *)
Fixpoint basename_aux (s acc : string) : string :=
  match s with
  | EmptyString => acc
  | String c s' =>
    if Ascii.eqb c "/" then basename_aux s' s' else basename_aux s' acc
  end.
Definition basename (s : string) : string := basename_aux s s.

Fixpoint skip_dots (s : string) : string :=
  match s with
  | String c s' => if Ascii.eqb c "." then skip_dots s' else s
  | EmptyString => s
  end.

(** From the last ["."] of [s] on; empty when [s] has none. *)
Fixpoint last_dot (s : string) (acc : string) : string :=
  match s with
  | EmptyString => acc
  | String c s' => if Ascii.eqb c "." then last_dot s' s else last_dot s' acc
  end.

(** [os.path.splitext(p)[1]]: leading dots of the base name do not
    start an extension. *)
Definition splitext_ext (p : string) : string :=
  last_dot (skip_dots (basename p)) EmptyString.

Definition format_of_extension (fp : string) : option string :=
  let ext := PyStr.lower (splitext_ext fp) in
  match find (fun kv => String.eqb (fst kv) ext) EXTENSION with
  | Some kv => Some (snd kv)
  | None => None
  end.

(** [Image.save]: a [format] argument overrides; without it the
    extension of the file name chooses the encoder. *)
Definition encoder (call : save_call) : option string :=
  match sv_format call with
  | Some f => Some f
  | None => format_of_extension (sv_fp call)
  end.

End Pillow.

(** ** The program *)

Section Program.

Context {E : Externals}.

(** [PIL.Image.frombytes(mode, size, data, decoder_name, *args)] *)
Definition frombytes (mode : string) (size : Z * Z) (data : list Byte.byte)
    (decoder_name raw_mode : string) (stride : Z) : M ref :=
  match pil_frombytes_error mode size data decoder_name raw_mode stride with
  | Some e => raise e
  | None =>
    alloc {| im_mode := mode; im_size := size;
             im_data := RawData data decoder_name raw_mode stride |}
  end.

(** [image.resize(size, resample=resample)]: a new image object. *)
Definition resize (image : ref) (size : Z * Z) (resample : resampling) : M ref :=
  let* im := deref image in
  match pil_resize_error im size resample with
  | Some e => raise e
  | None => alloc (resized_image im size resample)
  end.

(** [PIL.Image.open(file)] *)
Definition open (file : string) : M ref :=
  let* _ := emit (EvOpen file) in
  let* im := lift (pil_open file) in
  alloc im.

(** [stack.enter_context(im)] *)
Definition enter_context (im : ref) : M ref :=
  fun w => (Ok im, {| heap := heap w; trace := trace w;
                      exit_stack := im :: exit_stack w |}).

(** Leaving the [with] block closes the entered images, the last
    entered first. *)
Fixpoint close_all (entered : list ref) (w : world) : world :=
  match entered with
  | [] => w
  | im :: rest =>
    close_all rest {| heap := heap w; trace := trace w ++ [EvClose im];
                      exit_stack := exit_stack w |}
  end.

(** Entering the [with] block: a new, empty stack. *)
Definition enter_exit_stack (w : world) : world :=
  {| heap := heap w; trace := trace w; exit_stack := [] |}.

(** Leaving it, normally or by an exception: the entered images are
    closed and the stack of the caller, [outer], is back. *)
Definition leave_exit_stack {A} (outer : list ref) (rw : result A * world)
  : result A * world :=
  let '(r, w') := rw in
  (r, close_all (exit_stack w')
        {| heap := heap w'; trace := trace w'; exit_stack := outer |}).

(** [with contextlib.ExitStack() as stack: body] *)
Definition with_exit_stack {A} (body : M A) : M A :=
  fun w => leave_exit_stack (exit_stack w) (body (enter_exit_stack w)).

(** [im.save(fp, format, **params)] *)
Definition image_save (im : ref) (fp : string) (format : option string)
    (params : gmap string pyval) : M unit :=
  fun w =>
    let call := {| sv_image := im; sv_fp := fp; sv_format := format;
                   sv_params := params |} in
    let w' := {| heap := heap w; trace := trace w ++ [EvSave call];
                 exit_stack := exit_stack w |} in
    match pil_save_error w call with
    | Some e => (Raise e, w')
    | None => (Ok tt, w')
    end.

(** *** [load_heif] *)

Definition load_heif (file : string) : M ref :=
  let* _ := emit (EvHeifRead file) in
  let* heif_file := lift (pyheif_read file) in
  frombytes (hf_mode heif_file) (hf_size heif_file) (hf_data heif_file)
    "raw" (hf_mode heif_file) (hf_stride heif_file).

(** *** [images_to_pdf] *)

(** A filter: a callback from a list of images to a list of images. *)
Definition filter_fn : Type := list ref -> M (list ref).

(** The f-string of the [raise] statement; it formats the name
    [keys]. *)
Definition reserved_key_message (locals : list (string * pyval)) : result string :=
  match load_name locals "keys" with
  | Ok v =>
      Ok ("cannot supply the " +:+ repr v
          +:+ " keyword argument as it will be overridden")
  | Raise e => Raise e
  end.

(** [for key in 'append_images', 'save_all': if key in kwargs: raise ...] *)
Fixpoint check_reserved (keys_left : list string) (kwargs : gmap string pyval)
    (locals : list (string * pyval)) : M unit :=
  match keys_left with
  | [] => ret tt
  | key :: rest =>
    if decide (is_Some (kwargs !! key)) then
      let* msg := lift (reserved_key_message (("key", VStr key) :: locals)) in
      raise (TypeError msg)
    else check_reserved rest kwargs locals
  end.

(** [for file in files: ... images.append(im)] *)
Fixpoint load_images (files : list string) (images : list ref) : M (list ref) :=
  match files with
  | [] => ret images
  | file :: rest =>
    let* im :=
      if has_extension file [".heic"; ".heif"] then load_heif file
      else (let* opened := open file in enter_context opened) in
    load_images rest (images ++ [im])
  end.

(** [for callback in filters: images = callback(images)] *)
Fixpoint run_filters (filters : list filter_fn) (images : list ref) : M (list ref) :=
  match filters with
  | [] => ret images
  | callback :: rest =>
    let* images := callback images in
    run_filters rest images
  end.

(** [images[0].save(outfile, 'PDF', save_all=True,
                    append_images=images[1:], **kwargs)] *)
Definition save_pdf (images : list ref) (outfile : string)
    (kwargs : gmap string pyval) : M unit :=
  match images with
  | [] => raise (IndexError "list index out of range")
  | first :: others =>
    let* params :=
      lift (merge_keywords
              [("save_all", VBool true); ("append_images", VImages others)] kwargs) in
    image_save first outfile (Some "PDF") params
  end.

Definition images_to_pdf (files : list string) (outfile : string)
    (filters : option (list filter_fn)) (kwargs : gmap string pyval) : M unit :=
  match files with
  | [] => raise (ValueError "empty image file list")
  | _ :: _ =>
    let locals :=
      [("files", VObject "files"); ("outfile", VStr outfile);
       ("filters", VObject "filters"); ("kwargs", VObject "kwargs")] in
    let* _ := check_reserved ["append_images"; "save_all"] kwargs locals in
    with_exit_stack
      (let* images := load_images files [] in
       let* images :=
         match filters with
         | Some callbacks => run_filters callbacks images
         | None => ret images
         end in
       save_pdf images outfile kwargs)
  end.

(** *** [adjust_widths] *)

(** [min(...)] over ints; the message is the one of CPython up to
    3.11. *)
Definition py_min (l : list Z) : result Z :=
  match l with
  | [] => Raise (ValueError "min() arg is an empty sequence")
  | x :: l' => Ok (fold_left Z.min l' x)
  end.

(** [width for width, height in (im.size for im in images)] *)
Fixpoint widths (images : list ref) : M (list Z) :=
  match images with
  | [] => ret []
  | image :: rest =>
    let* im := deref image in
    let '(width, height) := im_size im in
    let* ws := widths rest in
    ret (width :: ws)
  end.

(** [round(height * (min_width / width))] *)
Definition new_height_of (min_width width height : Z) : result Z :=
  match PyFloat.int_truediv min_width width with
  | Raise e => Raise e
  | Ok ratio =>
    match PyFloat.int_mul height ratio with
    | Raise e => Raise e
    | Ok scaled => PyFloat.round scaled
    end
  end.

(** The loop over [images], appending to [new_images]. *)
Fixpoint resize_each (images : list ref) (min_width : Z) (resample : resampling)
    (new_images : list ref) : M (list ref) :=
  match images with
  | [] => ret new_images
  | image :: rest =>
    let* im := deref image in
    let '(width, height) := im_size im in
    let* new_height := lift (new_height_of min_width width height) in
    let new_size := (min_width, new_height) in
    let* resized := resize image new_size resample in
    resize_each rest min_width resample (new_images ++ [resized])
  end.

(** A call that gives no [resample] passes [LANCZOS], the default. *)
Definition adjust_widths (images : list ref) (resample : resampling) : M (list ref) :=
  let* ws := widths images in
  let* min_width := lift (py_min ws) in
  resize_each images min_width resample [].

End Program.

(** ** The composition of a filter chain *)

(** Kleisli composition: [f] first, then [g] on what [f] returned. *)
Definition then_filter (f g : list ref -> M (list ref)) : list ref -> M (list ref) :=
  fun images => let* images' := f images in g images'.

(** The filters of a chain composed from the first to the last, the last
    one applied last. *)
Definition compose_filters (filters : list (list ref -> M (list ref)))
  : list ref -> M (list ref) :=
  fold_left then_filter filters ret.

(** ** The command line driver *)

(** What [parser.parse_args()] returns in [main].  [arg_src] holds at
    least one name ([nargs='+']); [arg_quality] is the text given after
    [--quality], as no [type] is declared for it. *)
Record cli_args : Type :=
  { arg_src : list string; arg_dst : string; arg_quality : option string;
    arg_grayscale : bool; arg_adjust_widths : bool }.

(** The decisions of Pillow that only [main] asks for: the pixels that
    [convert] produces, or its exception, and whether [load] raises. *)
Class DriverExternals : Type :=
  { pil_convert : image -> string -> result pixels;
    pil_load_error : image -> option exn }.

(** What [im.convert(mode)] returns: the requested mode, the size
    kept. *)
Definition converted_image (im : image) (mode : string) (data : pixels) : image :=
  {| im_mode := mode; im_size := im_size im; im_data := data |}.

Section Driver.

Context {E : Externals} {D : DriverExternals}.

(** [im.convert(mode)]: a new image object. *)
Definition convert (image : ref) (mode : string) : M ref :=
  let* im := deref image in
  match pil_convert im mode with
  | Raise e => raise e
  | Ok data => alloc (converted_image im mode data)
  end.

(** [im.load()] *)
Definition load (image : ref) : M unit :=
  let* im := deref image in
  match pil_load_error im with
  | Some e => raise e
  | None => ret tt
  end.

(** [lambda images: [im.convert('L') for im in images]] *)
Fixpoint to_grayscale (images : list ref) : M (list ref) :=
  match images with
  | [] => ret []
  | im :: rest =>
    let* converted := convert im "L" in
    let* others := to_grayscale rest in
    ret (converted :: others)
  end.

(** [with PIL.Image.open(src) as im: im.load()]: the image is closed
    when the block is left, also by an exception of [load]. *)
Definition open_and_load (src : string) : M ref :=
  let* im := open src in
  fun w =>
    let '(r, w') := load im w in
    let closed := {| heap := heap w'; trace := trace w' ++ [EvClose im];
                     exit_stack := exit_stack w' |} in
    match r with
    | Ok _ => (Ok im, closed)
    | Raise e => (Raise e, closed)
    end.

(** [main], from [args = parser.parse_args()] on. *)
Definition main (args : cli_args) : M unit :=
  if has_extension (arg_dst args) [".pdf"] then
    match arg_quality args with
    | Some _ => raise (ValueError "--quality does not apply to PDF")
    | None =>
      let filters : list filter_fn := [] in
      let filters :=
        if arg_adjust_widths args
        then filters ++ [fun images => adjust_widths images LANCZOS]
        else filters in
      let filters :=
        if arg_grayscale args then filters ++ [to_grayscale] else filters in
      images_to_pdf (arg_src args) (arg_dst args) (Some filters) ∅
    end
  else
    if negb (length (arg_src args) =? 1)%nat then
      raise (ValueError
               "can only supply one source file when converting HEIF to JPEG")
    else
      match arg_src args with
      | [] => raise (IndexError "list index out of range")
      | src :: _ =>
        let* im :=
          if has_extension src [".heif"; ".heic"] then load_heif src
          else open_and_load src in
        let* im := if arg_grayscale args then convert im "L" else ret im in
        let quality :=
          match arg_quality args with
          | Some q => VStr q
          | None => VInt 75
          end in
        image_save im (arg_dst args) None {["quality" := quality]}
      end.

End Driver.

(** ** Words for the statements about loading *)

Section Loading.

Context {E : Externals}.

(** What a file loads as in [images_to_pdf]: through pyheif and
    [frombytes] for a HEIF name, through [PIL.Image.open] otherwise. *)
Definition decoded (file : string) : result image :=
  if has_extension file [".heic"; ".heif"] then
    match pyheif_read file with
    | Raise e => Raise e
    | Ok heif_file =>
      match pil_frombytes_error (hf_mode heif_file) (hf_size heif_file)
              (hf_data heif_file) "raw" (hf_mode heif_file) (hf_stride heif_file) with
      | Some e => Raise e
      | None =>
        Ok {| im_mode := hf_mode heif_file; im_size := hf_size heif_file;
              im_data := RawData (hf_data heif_file) "raw" (hf_mode heif_file)
                           (hf_stride heif_file) |}
      end
    end
  else pil_open file.

End Loading.

(** The external call that loading a file starts with. *)
Definition load_event (file : string) : event :=
  if has_extension file [".heic"; ".heif"] then EvHeifRead file else EvOpen file.

(** The images that loading [files] enters in the exit stack, in the
    order of the files, when the first file gets the address [start]:
    one object per file, and the HEIF ones are not entered. *)
Fixpoint entered (start : nat) (files : list string) : list ref :=
  match files with
  | [] => []
  | file :: rest =>
    (if has_extension file [".heic"; ".heif"] then [] else [start])
      ++ entered (S start) rest
  end.

(** From [w] to [w'] nothing happened but the creation of image
    objects: no external call, the same exit stack, the objects of [w]
    unchanged. *)
Definition only_allocates (w w' : world) : Prop :=
  trace w' = trace w /\ exit_stack w' = exit_stack w /\
  exists new_objects, heap w' = heap w ++ new_objects.

(** What a location can add to a mantissa when it is rounded. *)
Definition excess (l : location) : Z :=
  match l with loc_Exact => 0 | _ => 1 end.

(** The float [(-1)^0 * m * 2^e] is at most the int [n]. *)
Definition float_le_int (m e n : Z) : Prop :=
  if 0 <=? e then m * 2 ^ e <= n else m <= n * 2 ^ (- e).

(** Mode and size of the images that [refs] name in [w]. *)
Definition modes_and_sizes (w : world) (refs : list ref) : list (option (string * (Z * Z))) :=
  map (fun r => match heap w !! r with
                | Some im => Some (im_mode im, im_size im)
                | None => None
                end) refs.

(** ** A sample environment

    Every file decodes, every call is accepted; used to run the program
    on concrete inputs. *)

Definition sample_externals : Externals :=
  {| pyheif_read := fun file =>
       Ok {| hf_mode := "RGB"; hf_size := (4, 3); hf_data := []; hf_stride := 12 |};
     pil_frombytes_error := fun _ _ _ _ _ _ => None;
     pil_open := fun file =>
       Ok {| im_mode := "RGB"; im_size := (300, 200); im_data := FileData file |};
     pil_resize_error := fun _ _ _ => None;
     pil_save_error := fun _ _ => None |}.

Definition sample_driver_externals : DriverExternals :=
  {| pil_convert := fun im mode => Ok (im_data im);
     pil_load_error := fun _ => None |}.

(** Like [sample_externals], but Pillow cannot open ["bad.jpg"]. *)
Definition unreadable_externals : Externals :=
  {| pyheif_read := fun file =>
       Ok {| hf_mode := "RGB"; hf_size := (4, 3); hf_data := []; hf_stride := 12 |};
     pil_frombytes_error := fun _ _ _ _ _ _ => None;
     pil_open := fun file =>
       if String.eqb file "bad.jpg" then Raise (OSError "cannot identify image file")
       else Ok {| im_mode := "RGB"; im_size := (300, 200); im_data := FileData file |};
     pil_resize_error := fun _ _ _ => None;
     pil_save_error := fun _ _ => None |}.

(** A Pillow that cannot load the pixels of any opened file. *)
Definition truncated_driver_externals : DriverExternals :=
  {| pil_convert := fun im mode => Ok (im_data im);
     pil_load_error := fun _ => Some (OSError "image file is truncated") |}.

(** A filter that returns no page. *)
Definition drop_all_pages : list ref -> M (list ref) := fun images => ret [].

Definition empty_world : world := {| heap := []; trace := []; exit_stack := [] |}.

(** A heap with the given images and nothing else. *)
Definition world_of (images : list image) : world :=
  {| heap := images; trace := []; exit_stack := [] |}.

Definition sample_image (width height : Z) : image :=
  {| im_mode := "RGB"; im_size := (width, height); im_data := FileData "page" |}.

(** A filter that reverses the pages, and one that drops the first. *)
Definition reverse_pages : list ref -> M (list ref) := fun images => ret (rev images).
Definition drop_first_page : list ref -> M (list ref) := fun images => ret (tail images).

Definition three_pages : list image :=
  [sample_image 300 200; sample_image 400 300; sample_image 500 250].

(** * Proofs *)

(** ** Facts about strings *)

Section StringFacts.

Import PyStr.

Lemma length_append (s t : string) :
  String.length (s +:+ t) = (String.length s + String.length t)%nat.
Proof. induction s as [|c s IH]; simpl; [reflexivity | now rewrite IH]. Qed.

Lemma drop_append (s t : string) : drop (String.length s) (s +:+ t) = t.
Proof. induction s as [|c s IH]; simpl; [now destruct t | exact IH]. Qed.

(** Every string splits at any position not beyond its end. *)
Lemma drop_split (n : nat) (s : string) :
  (n <= String.length s)%nat ->
  exists pre, s = pre +:+ drop n s /\ String.length pre = n.
Proof.
  revert s; induction n as [|n IH]; intros s Hn.
  - exists EmptyString. split; [now destruct s | reflexivity].
  - destruct s as [|c s]; simpl in Hn; [lia|].
    destruct (IH s) as (pre & Hpre & Hlen); [lia|].
    exists (String c pre). split; [|simpl; now rewrite Hlen].
    change (String c s = String c (pre +:+ drop n s)). now f_equal.
Qed.

Lemma endswith_spec (s suffix : string) :
  endswith s suffix = true <-> exists pre, s = pre +:+ suffix.
Proof.
  unfold endswith. rewrite andb_true_iff, Nat.leb_le, String.eqb_eq. split.
  - intros [Hle Heq].
    destruct (drop_split (String.length s - String.length suffix) s)
      as (pre & Hpre & _); [lia|].
    exists pre. now rewrite Heq in Hpre.
  - intros [pre ->]. rewrite length_append. split; [lia|].
    replace (String.length pre + String.length suffix - String.length suffix)%nat
      with (String.length pre) by lia.
    apply drop_append.
Qed.

Lemma lower_char_not_upper (c : ascii) : is_upper (lower_char c) = false.
Proof.
  unfold lower_char. destruct (is_upper c) eqn:Hc; [|exact Hc].
  destruct c as [[] [] [] [] [] [] [] []]; try discriminate Hc; reflexivity.
Qed.



Lemma lower_idempotent (s : string) : lower (lower s) = lower s.
Proof.
  induction s as [|c s IH]; simpl; [reflexivity|]. rewrite IH. f_equal.
  unfold lower_char at 1. now rewrite lower_char_not_upper.
Qed.


End StringFacts.

(** ** [has_extension] *)





(** ** The monad laws, at every world *)

Section MonadLaws.

Context {A B C : Type}.

Lemma bind_ret_l (a : A) (k : A -> M B) (w : world) : bind (ret a) k w = k a w.
Proof. reflexivity. Qed.

Lemma bind_ret_r (m : M A) (w : world) : bind m ret w = m w.
Proof. unfold bind. now destruct (m w) as [[a|e] w']. Qed.

Lemma bind_assoc (m : M A) (f : A -> M B) (g : B -> M C) (w : world) :
  bind (bind m f) g w = bind m (fun a => bind (f a) g) w.
Proof. unfold bind. now destruct (m w) as [[a|e] w']. Qed.

Lemma bind_ok (m : M A) (k : A -> M B) (w w' : world) (a : A) :
  m w = (Ok a, w') -> bind m k w = k a w'.
Proof. unfold bind. now intros ->. Qed.

Lemma bind_raise (m : M A) (k : A -> M B) (w w' : world) (e : exn) :
  m w = (Raise e, w') -> bind m k w = (Raise e, w').
Proof. unfold bind. now intros ->. Qed.

End MonadLaws.

(** ** [images_to_pdf] *)

Section ImagesToPdf.

Context {E : Externals}.

(** *** The argument checks *)

(** The f-string of the reserved-key error cannot be built: [keys] is
    bound neither in the frame nor in the module. *)
Lemma reserved_key_message_raises (key outfile : string) :
  reserved_key_message
    [("key", VStr key); ("files", VObject "files"); ("outfile", VStr outfile);
     ("filters", VObject "filters"); ("kwargs", VObject "kwargs")]
  = Raise (NameError "name 'keys' is not defined").
Proof. reflexivity. Qed.

Lemma check_reserved_absent (kwargs : gmap string pyval)
    (locals : list (string * pyval)) (w : world) :
  kwargs !! "append_images" = None -> kwargs !! "save_all" = None ->
  check_reserved ["append_images"; "save_all"] kwargs locals w = (Ok tt, w).
Proof.
  intros Ha Hs. simpl. rewrite Ha, Hs.
  repeat (destruct (decide _) as [[v Hv]|_]; [discriminate Hv|]). reflexivity.
Qed.

Lemma check_reserved_present (kwargs : gmap string pyval) (outfile key : string)
    (w : world) :
  In key ["append_images"; "save_all"] -> is_Some (kwargs !! key) ->
  check_reserved ["append_images"; "save_all"] kwargs
    [("files", VObject "files"); ("outfile", VStr outfile);
     ("filters", VObject "filters"); ("kwargs", VObject "kwargs")] w
  = (Raise (NameError "name 'keys' is not defined"), w).
Proof.
  intros Hin Hsome. simpl.
  destruct (decide (is_Some (kwargs !! "append_images"))) as [_|Hno]; [reflexivity|].
  destruct (decide (is_Some (kwargs !! "save_all"))) as [_|Hno']; [reflexivity|].
  destruct Hin as [<-|[<-|[]]]; contradiction.
Qed.

(** C4: with an empty list of files the call raises the [ValueError]
    of the first check, a configuration error, and leaves the world as
    it was: nothing is decoded and no [save] is issued, so no output
    file is created. *)
Theorem images_to_pdf_empty_file_list (outfile : string)
    (filters : option (list filter_fn)) (kwargs : gmap string pyval) (w : world) :
  images_to_pdf [] outfile filters kwargs w
  = (Raise (ValueError "empty image file list"), w) /\
  is_usage_error (ValueError "empty image file list") = true.
Proof. split; reflexivity. Qed.

(** C10: the empty-list check comes first.  With a reserved key among
    the keyword arguments the reserved-key check alone would raise,
    and with a different exception; the call on an empty list of files
    still raises the empty-list [ValueError]. *)
Theorem empty_file_list_precedes_reserved_key (outfile key : string)
    (filters : option (list filter_fn)) (kwargs : gmap string pyval) (w : world) :
  In key ["append_images"; "save_all"] -> is_Some (kwargs !! key) ->
  images_to_pdf [] outfile filters kwargs w
  = (Raise (ValueError "empty image file list"), w) /\
  exists e,
    check_reserved ["append_images"; "save_all"] kwargs
      [("files", VObject "files"); ("outfile", VStr outfile);
       ("filters", VObject "filters"); ("kwargs", VObject "kwargs")] w
    = (Raise e, w) /\
    e <> ValueError "empty image file list".
Proof.
  intros Hin Hsome. split; [reflexivity|].
  exists (NameError "name 'keys' is not defined").
  split; [now apply check_reserved_present with (key := key) | discriminate].
Qed.

(** C1 (what the code does): with at least one file and a reserved
    key among the keyword arguments, the call raises before any file
    is decoded, leaving the world as it was; but the exception is the
    [NameError] of the misspelt name [keys] in the message, not a
    configuration error, and it does not name the key. *)
Theorem images_to_pdf_reserved_key_raises_NameError (file outfile key : string)
    (files : list string) (filters : option (list filter_fn))
    (kwargs : gmap string pyval) (w : world) :
  In key ["append_images"; "save_all"] -> is_Some (kwargs !! key) ->
  images_to_pdf (file :: files) outfile filters kwargs w
  = (Raise (NameError "name 'keys' is not defined"), w) /\
  is_usage_error (NameError "name 'keys' is not defined") = false.
Proof.
  intros Hin Hsome. split; [|reflexivity].
  unfold images_to_pdf.
  apply bind_raise. now apply check_reserved_present with (key := key).
Qed.

End ImagesToPdf.

(** ** The filter chain and the [save] call *)

Section FilterChain.

Context {E : Externals}.

(** The loop over two chains put end to end runs the first and hands
    its result to the second. *)
Lemma run_filters_app (before after : list filter_fn) (images : list ref) (w : world) :
  run_filters (before ++ after) images w
  = (let* images' := run_filters before images in run_filters after images') w.
Proof.
  revert images w; induction before as [|f before IH]; intros images w; cbn [app run_filters].
  - reflexivity.
  - rewrite bind_assoc.
    destruct (f images w) as [[images'|e] w'] eqn:Hf.
    + rewrite !(bind_ok _ _ _ _ _ Hf). apply IH.
    + now rewrite !(bind_raise _ _ _ _ _ Hf).
Qed.

Lemma fold_then_filter (filters : list filter_fn) (acc : filter_fn)
    (images : list ref) (w : world) :
  fold_left then_filter filters acc images w
  = (let* images' := acc images in run_filters filters images') w.
Proof.
  revert acc images w; induction filters as [|f filters IH]; intros acc images w; simpl.
  - now rewrite bind_ret_r.
  - rewrite IH. unfold then_filter. now rewrite bind_assoc.
Qed.

Lemma run_filters_compose (filters : list filter_fn) (images : list ref) (w : world) :
  run_filters filters images w = compose_filters filters images w.
Proof. unfold compose_filters. now rewrite fold_then_filter, bind_ret_l. Qed.

Lemma merge_keywords_fresh (kwargs : gmap string pyval) (others : list ref) :
  kwargs !! "append_images" = None -> kwargs !! "save_all" = None ->
  merge_keywords [("save_all", VBool true); ("append_images", VImages others)] kwargs
  = Ok (<["save_all" := VBool true]> (<["append_images" := VImages others]> kwargs)).
Proof.
  intros Ha Hs. simpl. rewrite Ha.
  rewrite lookup_insert_ne by discriminate. now rewrite Hs.
Qed.

(** C5: the filters run in the order of the list.  The loop is the
    composition of the chain, the last filter applied last; a filter at
    any place of the chain receives what the composed filters before it
    returned, and what it returns is what the filters after it receive;
    and what [images_to_pdf] hands to the encoder is the result of the
    composed chain on the loaded list (an exception of the chain ends
    the call with that exception and without [save]). *)
Theorem images_to_pdf_applies_filters_in_order :
  (forall (filters : list filter_fn) images w,
      run_filters filters images w = compose_filters filters images w) /\
  (forall (before after : list filter_fn) (callback : filter_fn) images w,
      run_filters (before ++ callback :: after) images w
      = (let* received := compose_filters before images in
         let* returned := callback received in
         compose_filters after returned) w) /\
  (forall file files outfile (filters : list filter_fn) kwargs w loaded w1,
      kwargs !! "append_images" = None -> kwargs !! "save_all" = None ->
      load_images (file :: files) [] (enter_exit_stack w) = (Ok loaded, w1) ->
      (forall final w2,
          compose_filters filters loaded w1 = (Ok final, w2) ->
          images_to_pdf (file :: files) outfile (Some filters) kwargs w
          = leave_exit_stack (exit_stack w) (save_pdf final outfile kwargs w2)) /\
      (forall e w2,
          compose_filters filters loaded w1 = (Raise e, w2) ->
          images_to_pdf (file :: files) outfile (Some filters) kwargs w
          = leave_exit_stack (exit_stack w) (Raise e, w2))).
Proof.
  split; [|split].
  - apply run_filters_compose.
  - intros before after callback images w. rewrite run_filters_app.
    cbn [run_filters]. unfold bind. rewrite run_filters_compose.
    destruct (compose_filters before images w) as [[received|e] w1]; [|reflexivity].
    destruct (callback received w1) as [[returned|e] w2]; [|reflexivity].
    apply run_filters_compose.
  - intros file files outfile filters kwargs w loaded w1 Ha Hs Hload.
    assert (Hcall : images_to_pdf (file :: files) outfile (Some filters) kwargs w
                    = leave_exit_stack (exit_stack w)
                        ((let* images := compose_filters filters loaded in
                          save_pdf images outfile kwargs) w1)).
    { unfold images_to_pdf.
      rewrite (bind_ok _ _ w w tt) by now apply check_reserved_absent.
      unfold with_exit_stack. f_equal.
      rewrite (bind_ok _ _ _ w1 loaded) by exact Hload.
      unfold bind. now rewrite run_filters_compose. }
    split; intros r w2 Hchain; rewrite Hcall; unfold bind; now rewrite Hchain.
Qed.


End FilterChain.

(** *** The calls above on concrete arguments *)

Lemma empty_file_list_precedes_reserved_key_witness :
  images_to_pdf (E := sample_externals) [] "out.pdf" None
    {["save_all" := VBool true]} empty_world
  = (Raise (ValueError "empty image file list"), empty_world) /\
  exists e,
    check_reserved ["append_images"; "save_all"] {["save_all" := VBool true]}
      [("files", VObject "files"); ("outfile", VStr "out.pdf");
       ("filters", VObject "filters"); ("kwargs", VObject "kwargs")] empty_world
    = (Raise e, empty_world) /\
    e <> ValueError "empty image file list".
Proof.
  apply (empty_file_list_precedes_reserved_key (E := sample_externals)
           "out.pdf" "save_all").
  - right; left; reflexivity.
  - exists (VBool true). reflexivity.
Defined.

Lemma images_to_pdf_reserved_key_raises_NameError_witness :
  images_to_pdf (E := sample_externals) ["a.jpg"] "out.pdf" None
    {["save_all" := VBool true]} empty_world
  = (Raise (NameError "name 'keys' is not defined"), empty_world) /\
  is_usage_error (NameError "name 'keys' is not defined") = false.
Proof.
  apply (images_to_pdf_reserved_key_raises_NameError (E := sample_externals)
           "a.jpg" "out.pdf" "save_all").
  - right; left; reflexivity.
  - exists (VBool true). reflexivity.
Defined.

Lemma images_to_pdf_applies_filters_in_order_witness :
  images_to_pdf (E := sample_externals) ["a.jpg"; "b.heic"; "c.png"] "out.pdf"
    (Some [reverse_pages; drop_first_page]) ∅ empty_world
  = leave_exit_stack [] (save_pdf (E := sample_externals) [1; 0]%nat "out.pdf" ∅
      (snd (load_images (E := sample_externals) ["a.jpg"; "b.heic"; "c.png"] []
              empty_world))).
Proof.
  refine (proj1 (proj2 (proj2 (images_to_pdf_applies_filters_in_order
                                 (E := sample_externals)))
                   "a.jpg" ["b.heic"; "c.png"] "out.pdf"
                   [reverse_pages; drop_first_page] ∅ empty_world [0; 1; 2]%nat
                   (snd (load_images (E := sample_externals)
                           ["a.jpg"; "b.heic"; "c.png"] [] empty_world))
                   _ _ _) [1; 0]%nat _ _); reflexivity.
Defined.



(** ** Python floats on the sizes of images *)

Section FloatFacts.
Import PyFloat.

Lemma div_eucl_div_mod (a b : Z) : Z.div_eucl a b = (a / b, a mod b).
Proof. unfold Z.div, Z.modulo. now destruct (Z.div_eucl a b). Qed.

(** The quotient of two positive ints, before rounding. *)
Lemma SFdiv_core_binary_int (a b : positive) :
  let e' := Z.min (fexp prec emax (Zdigits2 (Z.pos a) - Zdigits2 (Z.pos b))) 0 in
  let m' := Z.pos a * 2 ^ (- e') in
  SFdiv_core_binary prec emax (Z.pos a) 0 (Z.pos b) 0
  = (m' / Z.pos b, e', new_location (Z.pos b) (m' mod Z.pos b)).
Proof.
  intros e' m'. unfold SFdiv_core_binary. rewrite !Z.add_0_r.
  change (0 - 0) with 0. fold e'.
  assert (He' : e' <= 0) by apply Z.le_min_r.
  rewrite div_eucl_div_mod.
  assert (Hm : match 0 - e' with
               | 0 => Z.pos a
               | Z.pos _ => Z.shiftl (Z.pos a) (0 - e')
               | Z.neg _ => 0
               end = m').
  { unfold m'. replace (- e') with (0 - e') by lia.
    destruct (0 - e') as [|s|s] eqn:Hs; [lia | | lia].
    now rewrite Z.shiftl_mul_pow2 by lia. }
  now rewrite Hm.
Qed.

Lemma int_truediv_self (w : Z) : 0 < w -> int_truediv w w = Ok one.
Proof.
  intros Hw. destruct w as [|p|p]; try lia.
  unfold int_truediv. change (Z.abs (Z.pos p)) with (Z.pos p).
  rewrite SFdiv_core_binary_int. rewrite Z.sub_diag.
  change (Z.min (fexp prec emax 0) 0) with (-53).
  change (- -53) with 53.
  rewrite (Z.mul_comm (Z.pos p)), Z.div_mul, Z.mod_mul by lia.
  assert (Hloc : new_location (Z.pos p) 0 = loc_Exact).
  { unfold new_location. now destruct (Z.even (Z.pos p)). }
  rewrite Hloc. reflexivity.
Qed.

(** *** Digits *)

Lemma digits2_pos_bounds (p : positive) :
  2 ^ (Z.pos (digits2_pos p) - 1) <= Z.pos p < 2 ^ Z.pos (digits2_pos p).
Proof.
  induction p as [p IH|p IH|]; cbn [digits2_pos]; [| |cbn; lia];
    rewrite Pos2Z.inj_succ;
    replace (Z.succ (Z.pos (digits2_pos p)) - 1) with (Z.succ (Z.pos (digits2_pos p) - 1)) by lia;
    rewrite !Z.pow_succ_r by lia; lia.
Qed.

Lemma digits2_pos_le (p : positive) (k : Z) :
  Z.pos p < 2 ^ k -> Z.pos (digits2_pos p) <= k.
Proof.
  intros Hp. destruct (Z_le_gt_dec (Z.pos (digits2_pos p)) k) as [H|H]; [exact H|].
  pose proof (digits2_pos_bounds p) as [Hlo _].
  assert (0 <= k \/ k < 0) as [Hk|Hk] by lia.
  - assert (2 ^ k <= 2 ^ (Z.pos (digits2_pos p) - 1))
      by (apply Z.pow_le_mono_r; lia). lia.
  - rewrite Z.pow_neg_r in Hp by lia. lia.
Qed.

Lemma iter_xO_Z (p k : positive) : Z.pos (Pos.iter xO p k) = Z.pos p * 2 ^ Z.pos k.
Proof.
  induction k as [|k IH] using Pos.peano_ind.
  - cbn. lia.
  - rewrite Pos.iter_succ, Pos2Z.inj_xO, IH, Pos2Z.inj_succ, Z.pow_succ_r by lia. lia.
Qed.

Lemma digits2_iter_xO (p k : positive) :
  digits2_pos (Pos.iter xO p k) = (digits2_pos p + k)%positive.
Proof.
  induction k as [|k IH] using Pos.peano_ind.
  - cbn. lia.
  - rewrite Pos.iter_succ. cbn [digits2_pos]. rewrite IH. lia.
Qed.

(** *** Rounding what needs no rounding *)

Lemma shr_fexp_canonical (m : positive) (e : Z) :
  Z.pos (digits2_pos m) = 53 -> -1074 <= e ->
  shr_fexp prec emax (Z.pos m) e loc_Exact
  = ({| shr_m := Z.pos m; shr_r := false; shr_s := false |}, e).
Proof.
  intros Hd He. unfold shr_fexp. cbn [Zdigits2]. rewrite Hd.
  replace (fexp prec emax (53 + e) - e) with 0
    by (unfold fexp, emin, prec, emax; lia).
  reflexivity.
Qed.

(** A 53-bit mantissa with a normal exponent passes the two rounding
    steps unchanged. *)
Lemma round_canonical (s : bool) (m : positive) (e : Z) :
  Z.pos (digits2_pos m) = 53 -> -1074 <= e <= 971 ->
  (let '(mrs, e') := shr_fexp prec emax (Z.pos m) e loc_Exact in
   match shr_m mrs with
   | 0 => S754_zero s
   | Z.pos m' =>
       if e' <=? emax - prec then S754_finite s m' e' else S754_infinity s
   | Z.neg _ => S754_nan
   end) = S754_finite s m e.
Proof.
  intros Hd He. rewrite shr_fexp_canonical by lia. cbn [shr_m].
  replace (e <=? emax - prec) with true; [reflexivity|].
  symmetry. apply Z.leb_le. unfold emax, prec. lia.
Qed.

Lemma binary_round_aux_canonical (s : bool) (m : positive) (e : Z) :
  Z.pos (digits2_pos m) = 53 -> -1074 <= e <= 971 ->
  binary_round_aux prec emax s (Z.pos m) e loc_Exact = S754_finite s m e.
Proof.
  intros Hd He. unfold binary_round_aux. rewrite shr_fexp_canonical by lia.
  cbn [shr_m loc_of_shr_record round_nearest_even].
  now apply round_canonical.
Qed.

(** [float(i)] is exact below [2^53]: a 53-bit mantissa and the
    exponent that makes up for it. *)
Lemma of_int_exact (p : positive) :
  Z.pos p < 2 ^ 53 ->
  exists m e,
    of_int (Z.pos p) = Ok (S754_finite false m e) /\
    Z.pos (digits2_pos m) = 53 /\ -52 <= e <= 0 /\
    Z.pos m = Z.pos p * 2 ^ (- e).
Proof.
  intros Hp. pose proof (digits2_pos_le p 53 Hp) as Hd.
  assert (Hd1 : 1 <= Z.pos (digits2_pos p)) by lia.
  unfold of_int, binary_normalize, binary_round, shl_align.
  rewrite Z.add_0_r, Z.sub_0_r.
  replace (fexp prec emax (Z.pos (digits2_pos p))) with (Z.pos (digits2_pos p) - 53)
    by (unfold fexp, emin, prec, emax; lia).
  destruct (Z.pos (digits2_pos p) - 53) as [|k|k] eqn:Hk; [|lia|].
  - exists p, 0. rewrite binary_round_aux_canonical by lia.
    repeat split; try lia.
  - exists (Pos.iter xO p k), (Z.neg k).
    assert (Hdk : Z.pos (digits2_pos (Pos.iter xO p k)) = 53)
      by (rewrite digits2_iter_xO; lia).
    rewrite binary_round_aux_canonical by lia.
    repeat split; try lia. rewrite iter_xO_Z. reflexivity.
Qed.

(** Multiplying a 53-bit float by [1.0] changes nothing. *)
Lemma SFmul_one (m : positive) (e : Z) :
  Z.pos (digits2_pos m) = 53 -> -1074 <= e <= 971 ->
  SFmul prec emax (S754_finite false m e) one = S754_finite false m e.
Proof.
  intros Hd He. unfold one, SFmul. cbn [xorb].
  rewrite Pos.mul_comm.
  change (4503599627370496 * m)%positive with (Pos.iter xO m 52).
  assert (Hshr : shr_fexp prec emax (Z.pos (Pos.iter xO m 52)) (e + -52) loc_Exact
                 = ({| shr_m := Z.pos m; shr_r := false; shr_s := false |}, e)).
  { unfold shr_fexp. cbn [Zdigits2]. rewrite digits2_iter_xO, Pos2Z.inj_add, Hd.
    replace (fexp prec emax (53 + 52 + (e + -52)) - (e + -52)) with 52
      by (unfold fexp, emin, prec, emax; lia).
    unfold shr. f_equal. lia. }
  unfold binary_round_aux. rewrite Hshr.
  cbn [shr_m loc_of_shr_record round_nearest_even].
  now apply round_canonical.
Qed.

Lemma SFmul_zero_one (s : bool) : SFmul prec emax (S754_zero s) one = S754_zero s.
Proof. now destruct s. Qed.

(** [round] gives back the int that a float holds exactly. *)
Lemma round_exact (m : positive) (e i : Z) :
  e <= 0 -> Z.pos m = i * 2 ^ (- e) ->
  round (S754_finite false m e) = Ok i.
Proof.
  intros He Hm. unfold round, round_half_even. cbn [cond_Zopp]. f_equal.
  destruct (0 <=? e) eqn:H0.
  - apply Z.leb_le in H0. replace e with 0 in * by lia. cbn in Hm. lia.
  - assert (Hpow : 0 < 2 ^ (- e)) by (apply Z.pow_pos_nonneg; lia).
    rewrite Hm, Z.mod_mul, Z.div_mul by lia.
    assert (Hlt : (2 * 0 ?= 2 ^ (- e)) = Lt) by (apply Z.compare_lt_iff; lia).
    now rewrite Hlt.
Qed.

(** An int times [1.0], rounded, is the int. *)
Lemma round_int_mul_one (h : Z) :
  0 <= h < 2 ^ 53 ->
  exists x, int_mul h one = Ok x /\ round x = Ok h.
Proof.
  intros Hh. destruct h as [|p|p]; [| |lia].
  - exists (S754_zero false). split; reflexivity.
  - destruct (of_int_exact p) as (m & e & Hof & Hd & He & Hm); [lia|].
    exists (S754_finite false m e). unfold int_mul. rewrite Hof.
    rewrite SFmul_one by lia. split; [reflexivity|].
    apply round_exact; [lia | exact Hm].
Qed.

(** *** No overflow on sizes of images *)

Lemma fexp_eq (x : Z) : fexp prec emax x = Z.max (x - 53) (-1074).
Proof. reflexivity. Qed.

Lemma Zdigits2_le (m D : Z) : 0 <= D -> 0 <= m < 2 ^ D -> Zdigits2 m <= D.
Proof.
  intros HD Hm. destruct m as [|p|p]; [exact HD | | lia].
  apply digits2_pos_le. lia.
Qed.

Lemma shr_1_bounds (mrs : shr_record) :
  0 <= shr_m mrs -> 0 <= shr_m (shr_1 mrs) <= shr_m mrs.
Proof. destruct mrs as [[|[p|p|]|p] r s]; cbn; lia. Qed.

Lemma iter_shr_1_bounds (n : positive) (mrs : shr_record) :
  0 <= shr_m mrs -> 0 <= shr_m (SpecFloat.iter_pos shr_1 n mrs) <= shr_m mrs.
Proof.
  revert mrs; induction n as [n IH|n IH|]; intros mrs Hm; cbn [SpecFloat.iter_pos].
  - pose proof (shr_1_bounds mrs Hm) as H1.
    pose proof (IH (shr_1 mrs) ltac:(lia)) as H2.
    pose proof (IH (SpecFloat.iter_pos shr_1 n (shr_1 mrs)) ltac:(lia)). lia.
  - pose proof (IH mrs Hm) as H1.
    pose proof (IH (SpecFloat.iter_pos shr_1 n mrs) ltac:(lia)). lia.
  - now apply shr_1_bounds.
Qed.

Lemma shr_fexp_bounds (m e : Z) (l : location) :
  0 <= m ->
  0 <= shr_m (fst (shr_fexp prec emax m e l)) <= m /\
  snd (shr_fexp prec emax m e l) = Z.max e (fexp prec emax (Zdigits2 m + e)).
Proof.
  intros Hm. unfold shr_fexp, shr.
  assert (Hrec : shr_m (shr_record_of_loc m l) = m) by now destruct l as [|[]].
  destruct (fexp prec emax (Zdigits2 m + e) - e) as [|n|n] eqn:Hn; cbn [fst snd].
  - rewrite Hrec. lia.
  - pose proof (iter_shr_1_bounds n (shr_record_of_loc m l)) as H.
    rewrite Hrec in H. lia.
  - rewrite Hrec. lia.
Qed.

Lemma round_nearest_even_bounds (m : Z) (l : location) :
  0 <= m -> 0 <= round_nearest_even m l <= m + 1.
Proof. intros Hm. destruct l as [|[]]; cbn; try destruct (Z.even m); lia. Qed.

(** Rounding a small enough value gives a zero or a finite float. *)
Lemma binary_round_aux_finite (s : bool) (m e D : Z) (l : location) :
  0 <= D -> 0 <= m -> m + 1 < 2 ^ D -> rounded_exponent D e <= 971 ->
  binary_round_aux prec emax s m e l = S754_zero s \/
  exists p e',
    binary_round_aux prec emax s m e l = S754_finite s p e' /\
    Z.pos p < 2 ^ D /\ e' <= rounded_exponent D e.
Proof.
  intros HD Hm HmD Hexp. unfold binary_round_aux.
  pose proof (shr_fexp_bounds m e l Hm) as [Hm1 He1].
  destruct (shr_fexp prec emax m e l) as [mrs1 e1]. cbn [fst snd] in Hm1, He1.
  pose proof (round_nearest_even_bounds (shr_m mrs1) (loc_of_shr_record mrs1)
                ltac:(lia)) as Hm2.
  set (m2 := round_nearest_even (shr_m mrs1) (loc_of_shr_record mrs1)) in *.
  pose proof (shr_fexp_bounds m2 e1 loc_Exact ltac:(lia)) as [Hm3 He2].
  destruct (shr_fexp prec emax m2 e1 loc_Exact) as [mrs2 e2]. cbn [fst snd] in Hm3, He2.
  pose proof (Zdigits2_le m D HD ltac:(lia)) as Hd.
  pose proof (Zdigits2_le m2 D HD ltac:(lia)) as Hd2.
  rewrite fexp_eq in He1, He2. unfold rounded_exponent in *.
  assert (He2' : e2 <= Z.max (Z.max e (Z.max (D + e - 53) (-1074)))
                        (Z.max (D + Z.max e (Z.max (D + e - 53) (-1074)) - 53) (-1074)))
    by lia.
  destruct (shr_m mrs2) as [|p|p] eqn:Hp; [now left | | lia].
  right. exists p, e2.
  replace (e2 <=? emax - prec) with true
    by (symmetry; apply Z.leb_le; unfold emax, prec; lia).
  repeat split; [lia | exact He2'].
Qed.

Lemma int_truediv_finite (a b : positive) :
  Z.pos a < 2 ^ 31 -> Z.pos b < 2 ^ 31 ->
  exists x, int_truediv (Z.pos a) (Z.pos b) = Ok x /\ small_float 115 101 x.
Proof.
  intros Ha Hb. unfold int_truediv. change (Z.abs (Z.pos a)) with (Z.pos a).
  change (Z.abs (Z.pos b)) with (Z.pos b).
  change (xorb (Z.pos a <? 0) (Z.pos b <? 0)) with false.
  rewrite SFdiv_core_binary_int. rewrite fexp_eq.
  pose proof (digits2_pos_le a 31 Ha) as Hda.
  pose proof (digits2_pos_le b 31 Hb) as Hdb.
  cbn [Zdigits2].
  set (e' := Z.min (Z.max (Z.pos (digits2_pos a) - Z.pos (digits2_pos b) - 53) (-1074)) 0).
  assert (He' : -83 <= e' <= -23) by lia.
  assert (Hpow : 0 < 2 ^ (- e') <= 2 ^ 83)
    by (split; [apply Z.pow_pos_nonneg | apply Z.pow_le_mono_r]; lia).
  set (m' := Z.pos a * 2 ^ (- e')).
  assert (Hm' : 0 <= m' < 2 ^ 114).
  { unfold m'. change (2 ^ 114) with (2 ^ 31 * 2 ^ 83). nia. }
  assert (Hq : 0 <= m' / Z.pos b <= m').
  { split; [apply Z.div_pos; lia|]. apply Z.div_le_upper_bound; nia. }
  destruct (binary_round_aux_finite false (m' / Z.pos b) e' 115
              (new_location (Z.pos b) (m' mod Z.pos b)))
    as [Hz|(p & e & Hf & Hp & He)].
  - lia.
  - lia.
  - change (2 ^ 115) with (2 * 2 ^ 114). lia.
  - unfold rounded_exponent. lia.
  - rewrite Hz. eexists; split; [reflexivity | now left].
  - rewrite Hf. eexists; split; [reflexivity|]. right. exists p, e.
    repeat split; [exact Hp|]. unfold rounded_exponent in He. lia.
Qed.

Lemma round_int_mul_finite (h : Z) (x : float) :
  0 <= h < 2 ^ 31 -> small_float 115 101 x ->
  exists y nh, int_mul h x = Ok y /\ round y = Ok nh.
Proof.
  intros Hh Hx. unfold int_mul. destruct h as [|ph|ph]; [| |lia].
  - exists (S754_zero false), 0.
    destruct Hx as [->|(p & e & -> & _)]; split; reflexivity.
  - destruct (of_int_exact ph) as (m & e & Hof & Hd & He & _); [lia|].
    rewrite Hof.
    destruct Hx as [->|(p & ex & -> & Hp & Hex)].
    + exists (S754_zero false), 0. split; reflexivity.
    + cbn [SFmul xorb].
      pose proof (digits2_pos_bounds m) as [_ Hm]. rewrite Hd in Hm.
      assert (Hmp : Z.pos (m * p) + 1 < 2 ^ 169).
      { rewrite Pos2Z.inj_mul. change (2 ^ 169) with (2 * (2 ^ 53 * 2 ^ 115)). nia. }
      destruct (binary_round_aux_finite false (Z.pos (m * p)) (e + ex) 169 loc_Exact)
        as [Hz|(q & eq & Hf & _)]; try lia.
      * unfold rounded_exponent. lia.
      * rewrite Hz. exists (S754_zero false), 0. split; reflexivity.
      * rewrite Hf. eexists _, _. split; reflexivity.
Qed.

(** On the sizes that Pillow images have, the new height is always
    computed. *)
Lemma new_height_of_total (min_width width height : Z) :
  0 < min_width < 2 ^ 31 -> 0 < width < 2 ^ 31 -> 0 <= height < 2 ^ 31 ->
  exists new_height, new_height_of min_width width height = Ok new_height.
Proof.
  intros Hm Hw Hh. unfold new_height_of.
  destruct min_width as [|a|a]; try lia. destruct width as [|b|b]; try lia.
  destruct (int_truediv_finite a b) as (x & -> & Hx); [lia | lia |].
  destruct (round_int_mul_finite height x Hh Hx) as (y & nh & -> & Hr).
  now exists nh.
Qed.

(** An image resized to its own width keeps its height. *)
Lemma new_height_of_same_width (width height : Z) :
  0 < width -> 0 <= height < 2 ^ 53 ->
  new_height_of width width height = Ok height.
Proof.
  intros Hw Hh. unfold new_height_of. rewrite int_truediv_self by exact Hw.
  destruct (round_int_mul_one height Hh) as (x & -> & Hr). exact Hr.
Qed.
End FloatFacts.

(** ** [adjust_widths] *)

Section AdjustWidths.

Context {E : Externals}.

(** *** The minimum *)

Lemma fold_min_le (l : list Z) (x : Z) :
  fold_left Z.min l x <= x /\ Forall (fun y => fold_left Z.min l x <= y) l.
Proof.
  revert x; induction l as [|y l IH]; intros x; cbn [fold_left].
  - split; [lia | constructor].
  - destruct (IH (Z.min x y)) as [H1 H2]. split; [lia|].
    constructor; [lia | exact H2].
Qed.

Lemma fold_min_In (l : list Z) (x : Z) : In (fold_left Z.min l x) (x :: l).
Proof.
  revert x; induction l as [|y l IH]; intros x; cbn [fold_left].
  - now left.
  - destruct (IH (Z.min x y)) as [H|H].
    + destruct (Z.min_spec x y) as [[_ Hm]|[_ Hm]]; rewrite Hm in *;
        [left | right; left]; exact H.
    + right; right; exact H.
Qed.

Lemma fold_min_constant (l : list Z) (x : Z) :
  Forall (fun y => y = x) l -> fold_left Z.min l x = x.
Proof.
  induction 1 as [|y l -> _ IH]; cbn [fold_left]; [reflexivity|].
  now rewrite Z.min_id.
Qed.

(** *** Reading the widths *)

Lemma widths_ok (images : list ref) (ims : list image) (w : world) :
  Forall2 (fun r im => heap w !! r = Some im) images ims ->
  widths images w = (Ok (map width ims), w).
Proof.
  induction 1 as [|r im images ims Hr _ IH]; [reflexivity|].
  cbn [widths map]. unfold bind at 1, deref. rewrite Hr.
  change (width im) with (fst (im_size im)).
  destruct (im_size im) as [wd ht]. cbn [fst].
  unfold bind. now rewrite IH.
Qed.

(** *** The loop *)

Lemma resize_ok (r : ref) (im : image) (size : Z * Z) (resample : resampling)
    (w : world) :
  heap w !! r = Some im -> pil_resize_error im size resample = None ->
  resize r size resample w
  = (Ok (length (heap w)),
     {| heap := heap w ++ [resized_image im size resample]; trace := trace w;
        exit_stack := exit_stack w |}).
Proof. intros Hr Hok. unfold resize, bind, deref. now rewrite Hr, Hok. Qed.

Lemma resize_each_ok (min_width : Z) (resample : resampling) (images : list ref) :
  forall (ims : list image) (heights : list Z) (new_images : list ref) (w : world),
    Forall2 (fun r im => heap w !! r = Some im) images ims ->
    Forall2 (fun im nh =>
               new_height_of min_width (width im) (height im) = Ok nh /\
               pil_resize_error im (min_width, nh) resample = None) ims heights ->
    resize_each images min_width resample new_images w
    = (Ok (new_images ++ seq (length (heap w)) (length images)),
       {| heap := heap w ++
                  zip_with (fun im nh => resized_image im (min_width, nh) resample)
                    ims heights;
          trace := trace w; exit_stack := exit_stack w |}).
Proof.
  induction images as [|r images IH];
    intros ims heights new_images w Hims Hheights.
  - apply Forall2_nil_inv_l in Hims as ->.
    apply Forall2_nil_inv_l in Hheights as ->.
    cbn. rewrite !app_nil_r. now destruct w.
  - apply Forall2_cons_inv_l in Hims as (im & ims' & Hr & Hims & ->).
    apply Forall2_cons_inv_l in Hheights as (nh & heights' & [Hnh Hok] & Hheights & ->).
    cbn [resize_each]. unfold bind at 1, deref. rewrite Hr.
    unfold width, height in Hnh. destruct (im_size im) as [wd ht] eqn:Hsize.
    cbn [fst snd] in Hnh. unfold bind at 1, lift. rewrite Hnh.
    rewrite (bind_ok _ _ _ _ _ (resize_ok r im (min_width, nh) resample w Hr Hok)).
    rewrite (IH ims' heights'); cbn [heap trace exit_stack].
    + rewrite length_app. cbn [length zip_with seq].
      rewrite <- !app_assoc. cbn [app].
      now replace (length (heap w) + 1)%nat with (S (length (heap w))) by lia.
    + eapply Forall2_impl; [exact Hims|].
      intros r' im' Hr'. cbn beta in *. now apply lookup_app_l_Some.
    + exact Hheights.
Qed.

(** *** The heights and the new objects *)

Lemma heights_exist (min_width : Z) (ims : list image) :
  0 < min_width < 2 ^ 31 ->
  Forall (fun im => 0 < width im /\ pil_dimension (width im) /\
                    pil_dimension (height im)) ims ->
  exists heights,
    Forall2 (fun im nh => new_height_of min_width (width im) (height im) = Ok nh)
      ims heights.
Proof.
  intros Hm. induction 1 as [|im ims (Hpos & Hw & Hh) _ [heights IH]].
  - exists []. constructor.
  - destruct (new_height_of_total min_width (width im) (height im)) as [nh Hnh];
      [exact Hm | unfold pil_dimension in Hw; lia | exact Hh |].
    exists (nh :: heights). now constructor.
Qed.

Lemma new_objects_width (min_width : Z) (resample : resampling) (ims : list image) :
  forall heights,
    Forall (fun y => y = min_width)
      (map width (zip_with (fun im nh => resized_image im (min_width, nh) resample)
                    ims heights)).
Proof.
  induction ims as [|im ims IH]; intros [|nh heights]; cbn; try constructor;
    [reflexivity | apply IH].
Qed.


(** C3 (as amended): for a non-empty list of images of positive width
    and of sizes that Pillow can hold, when Pillow accepts every
    requested size, [adjust_widths] returns a list of new image
    objects, as many as the inputs and in their order; the i-th one is
    the i-th input resized with [resample] to
    [(min_width, round(height * (min_width / width)))], where
    [min_width] is the least input width; the least width of the
    outputs is [min_width]; and no object that existed before the call
    is changed. *)
Theorem adjust_widths_resizes_to_narrowest (images : list ref) (ims : list image)
    (resample : resampling) (w : world) :
  images <> [] ->
  Forall2 (fun r im => heap w !! r = Some im) images ims ->
  Forall (fun im => 0 < width im /\ pil_dimension (width im) /\
                    pil_dimension (height im)) ims ->
  (forall im min_width nh,
      In im ims -> py_min (map width ims) = Ok min_width ->
      new_height_of min_width (width im) (height im) = Ok nh ->
      pil_resize_error im (min_width, nh) resample = None) ->
  exists min_width heights,
    py_min (map width ims) = Ok min_width /\
    Forall2 (fun im nh => new_height_of min_width (width im) (height im) = Ok nh)
      ims heights /\
    let new_objects :=
      zip_with (fun im nh => resized_image im (min_width, nh) resample) ims heights in
    let new_images := seq (length (heap w)) (length images) in
    let w' := {| heap := heap w ++ new_objects; trace := trace w;
                 exit_stack := exit_stack w |} in
    adjust_widths images resample w = (Ok new_images, w') /\
    length new_images = length images /\
    (forall i r im,
        images !! i = Some r -> heap w !! r = Some im ->
        exists r' nh,
          new_images !! i = Some r' /\ heights !! i = Some nh /\
          heap w' !! r' = Some (resized_image im (min_width, nh) resample)) /\
    py_min (map width new_objects) = Ok min_width /\
    (forall r im, heap w !! r = Some im -> heap w' !! r = Some im) /\
    Forall (fun r' => heap w !! r' = None) new_images.
Proof.
  intros Hne Hims Hbounds Hpillow.
  destruct images as [|r0 images0]; [congruence|].
  apply Forall2_cons_inv_l in Hims as (im0 & ims0 & Hr0 & Hims0 & ->).
  set (images := r0 :: images0) in *. set (ims := im0 :: ims0) in *.
  assert (Hims : Forall2 (fun r im => heap w !! r = Some im) images ims)
    by now constructor.
  set (min_width := fold_left Z.min (map width ims0) (width im0)).
  assert (Hmin : py_min (map width ims) = Ok min_width) by reflexivity.
  assert (Hmw : 0 < min_width < 2 ^ 31).
  { pose proof (fold_min_In (map width ims0) (width im0)) as Hin.
    change (In min_width (map width ims)) in Hin.
    apply in_map_iff in Hin as (im & <- & Him).
    rewrite Forall_forall in Hbounds.
    destruct (Hbounds im) as (Hpos & Hw & _); [now apply list_elem_of_In|].
    unfold pil_dimension in Hw. lia. }
  destruct (heights_exist min_width ims Hmw Hbounds) as [heights Hheights].
  exists min_width, heights. split; [exact Hmin|]. split; [exact Hheights|].
  intros new_objects new_images w'.
  assert (Hlen : length ims = length images)
    by (symmetry; eapply Forall2_length; exact Hims).
  assert (Hlen' : length heights = length ims)
    by (symmetry; eapply Forall2_length; exact Hheights).
  split; [|split; [|split; [|split; [|split]]]].
  - unfold adjust_widths.
    rewrite (bind_ok _ _ _ _ _ (widths_ok images ims w Hims)).
    unfold bind at 1, lift. rewrite Hmin.
    rewrite (resize_each_ok min_width resample images ims heights [] w Hims).
    + reflexivity.
    + apply Forall2_same_length_lookup. split; [lia|].
      intros i im nh Him Hnh.
      pose proof (Forall2_lookup_lr _ _ _ _ _ _ Hheights Him Hnh) as Hh.
      split; [exact Hh|]. apply Hpillow; [|exact Hmin|exact Hh].
      apply list_elem_of_In. eapply list_elem_of_lookup_2. exact Him.
  - apply length_seq.
  - intros i r im Hi Hr.
    destruct (Forall2_lookup_l _ _ _ _ _ Hims Hi) as (im' & Him' & Hr').
    assert (im' = im) by congruence. subst im'.
    destruct (Forall2_lookup_l _ _ _ _ _ Hheights Him') as (nh & Hnh & _).
    exists (length (heap w) + i)%nat, nh.
    split; [|split; [exact Hnh|]].
    + apply lookup_seq_lt. apply lookup_lt_Some in Hi. exact Hi.
    + unfold w'. cbn [heap]. rewrite lookup_app_r by lia.
      replace (length (heap w) + i - length (heap w))%nat with i by lia.
      unfold new_objects. rewrite lookup_zip_with, Him', Hnh. reflexivity.
  - destruct heights as [|nh0 heights0]; [discriminate Hlen'|].
    unfold new_objects, ims. cbn [zip_with map py_min].
    f_equal. apply fold_min_constant. apply new_objects_width.
  - intros r im Hr. unfold w'. cbn [heap]. now apply lookup_app_l_Some.
  - apply Forall_seq. intros r Hr. apply lookup_ge_None. lia.
Qed.

(** C7 (as amended): a list of one image of positive width comes back
    as a list of one new image, the input resized to its own size:
    the width is its own and the height is unchanged. *)
Theorem adjust_widths_single_image (r : ref) (im : image) (resample : resampling)
    (w : world) :
  heap w !! r = Some im ->
  0 < width im -> 0 <= height im < 2 ^ 53 ->
  pil_resize_error im (im_size im) resample = None ->
  adjust_widths [r] resample w
  = (Ok [length (heap w)],
     {| heap := heap w ++ [resized_image im (im_size im) resample];
        trace := trace w; exit_stack := exit_stack w |}) /\
  im_size (resized_image im (im_size im) resample) = (width im, height im).
Proof.
  intros Hr Hw Hh Hok. split; [|unfold width, height; now destruct (im_size im)].
  unfold adjust_widths.
  rewrite (bind_ok _ _ _ _ _ (widths_ok [r] [im] w ltac:(now repeat constructor))).
  cbn [map py_min fold_left]. unfold bind at 1, lift.
  assert (Hsize : im_size im = (width im, height im))
    by (unfold width, height; now destruct (im_size im)).
  rewrite (resize_each_ok (width im) resample [r] [im] [height im] [] w).
  - cbn [zip_with length seq app]. now rewrite <- Hsize.
  - now repeat constructor.
  - repeat constructor.
    + now apply new_height_of_same_width.
    + now rewrite <- Hsize.
Qed.

End AdjustWidths.

(** *** [adjust_widths] on concrete pages *)

Example adjust_widths_three_pages :
  adjust_widths (E := sample_externals) [0; 1; 2]%nat LANCZOS (world_of three_pages)
  = (Ok [3; 4; 5]%nat,
     world_of (three_pages ++
               [resized_image (sample_image 300 200) (300, 200) LANCZOS;
                resized_image (sample_image 400 300) (300, 225) LANCZOS;
                resized_image (sample_image 500 250) (300, 150) LANCZOS])).
Proof. reflexivity. Qed.

Lemma adjust_widths_resizes_to_narrowest_witness :
  exists min_width heights,
    py_min (map width three_pages) = Ok min_width /\
    adjust_widths (E := sample_externals) [0; 1; 2]%nat LANCZOS (world_of three_pages)
    = (Ok [3; 4; 5]%nat,
       {| heap := three_pages ++
                  zip_with (fun im nh => resized_image im (min_width, nh) LANCZOS)
                    three_pages heights;
          trace := []; exit_stack := [] |}) /\
    py_min (map width
              (zip_with (fun im nh => resized_image im (min_width, nh) LANCZOS)
                 three_pages heights)) = Ok min_width.
Proof.
  destruct (adjust_widths_resizes_to_narrowest (E := sample_externals)
              [0; 1; 2]%nat three_pages LANCZOS (world_of three_pages))
    as (min_width & heights & Hmin & _ & Hcall & _ & _ & Hout & _).
  - discriminate.
  - repeat constructor.
  - repeat constructor; cbn; lia.
  - reflexivity.
  - exists min_width, heights. split; [exact Hmin|]. split; [exact Hcall | exact Hout].
Defined.

Lemma adjust_widths_single_image_witness :
  adjust_widths (E := sample_externals) [0%nat] LANCZOS
    (world_of [sample_image 300 200])
  = (Ok [1%nat],
     {| heap := [sample_image 300 200] ++
                [resized_image (sample_image 300 200) (300, 200) LANCZOS];
        trace := []; exit_stack := [] |}) /\
  im_size (resized_image (sample_image 300 200) (300, 200) LANCZOS) = (300, 200).
Proof.
  apply (adjust_widths_single_image (E := sample_externals) 0%nat
           (sample_image 300 200) LANCZOS (world_of [sample_image 300 200])).
  - reflexivity.
  - cbn; lia.
  - cbn; lia.
  - reflexivity.
Defined.

(** What the code does on an image of width zero: the ratio
    [min_width / width] is [0 / 0]. *)
Example adjust_widths_zero_width_raises :
  adjust_widths (E := sample_externals) [0%nat] LANCZOS (world_of [sample_image 0 5])
  = (Raise (ZeroDivisionError "division by zero"), world_of [sample_image 0 5]).
Proof. reflexivity. Qed.

(** C7 (as stated) fails on a single image of width zero: no list comes
    back. *)
Lemma adjust_widths_single_zero_width :
  ~ (exists r w',
        adjust_widths (E := sample_externals) [0%nat] LANCZOS
          (world_of [sample_image 0 5])
        = (Ok [r], w')).
Proof. intros (r & w' & H). vm_compute in H. discriminate H. Qed.

(** C3 (as stated) fails on a non-empty list that holds an image of
    width zero: the first ratio is [0 / 0] and no list comes back. *)
Lemma adjust_widths_zero_width_page :
  ~ (exists new_images w',
        adjust_widths (E := sample_externals) [0; 1]%nat LANCZOS
          (world_of [sample_image 0 7; sample_image 4 3])
        = (Ok new_images, w')).
Proof. intros (new_images & w' & H). vm_compute in H. discriminate H. Qed.

(** ** More on [has_extension] *)

Section HasExtensionMore.

Import PyStr.



Lemma has_extension_same_members (filename : string) (exts exts' : list string) :
  (forall ext, In ext exts <-> In ext exts') ->
  has_extension filename exts = has_extension filename exts'.
Proof.
  intros Hmem. unfold has_extension.
  apply eq_true_iff_eq. rewrite !existsb_exists.
  split; intros (ext & Hin & Hend); exists ext; (split; [|exact Hend]);
    now apply Hmem.
Qed.

Lemma heif_suffixes_either_order (filename : string) :
  has_extension filename [".heif"; ".heic"] = has_extension filename [".heic"; ".heif"].
Proof. apply has_extension_same_members. intros ext. cbn. tauto. Qed.

(** X1: only the collection of suffixes matters, not their order or
    repetition: two lists with the same members give the same answer,
    and a concatenated list matches when either part does.  So
    [images_to_pdf], which tests [['.heic', '.heif']], and [main], which
    tests [['.heif', '.heic']], take the same files for HEIF. *)
Theorem has_extension_set_of_suffixes :
  (forall filename exts exts',
      (forall ext, In ext exts <-> In ext exts') ->
      has_extension filename exts = has_extension filename exts') /\
  (forall filename exts exts',
      has_extension filename (exts ++ exts')
      = has_extension filename exts || has_extension filename exts') /\
  (forall filename,
      has_extension filename [".heic"; ".heif"]
      = has_extension filename [".heif"; ".heic"]).
Proof.
  split; [exact has_extension_same_members|]. split.
  - intros filename exts exts'. unfold has_extension. apply existsb_app.
  - intros filename. symmetry. apply heif_suffixes_either_order.
Qed.

Lemma has_extension_set_of_suffixes_witness :
  has_extension "a.HEIF" [".heif"; ".heic"; ".heif"]
  = has_extension "a.HEIF" [".heic"; ".heif"].
Proof.
  apply (proj1 has_extension_set_of_suffixes "a.HEIF").
  intros ext. cbn. tauto.
Defined.



End HasExtensionMore.

(** ** Loading the files and leaving the [with] block *)

Section LoadingFacts.

Context {E : Externals}.

Lemma close_all_spec (entered_images : list ref) (w : world) :
  close_all entered_images w
  = {| heap := heap w; trace := trace w ++ map EvClose entered_images;
       exit_stack := exit_stack w |}.
Proof.
  revert w; induction entered_images as [|im rest IH]; intros w; cbn [close_all map].
  - rewrite app_nil_r. now destruct w.
  - rewrite IH. cbn [heap trace exit_stack]. now rewrite <- app_assoc.
Qed.

(** One turn of the loop, on a file that decodes. *)
Lemma load_one_ok (file : string) (im : image) (w : world) :
  decoded file = Ok im ->
  (if has_extension file [".heic"; ".heif"] then load_heif file
   else (let* opened := open file in enter_context opened)) w
  = (Ok (length (heap w)),
     {| heap := heap w ++ [im]; trace := trace w ++ [load_event file];
        exit_stack := (if has_extension file [".heic"; ".heif"]
                       then [] else [length (heap w)]) ++ exit_stack w |}).
Proof.
  unfold decoded, load_event. destruct (has_extension file _).
  - unfold load_heif, bind, emit, lift, frombytes, alloc.
    destruct (pyheif_read file) as [hf|e]; [|discriminate].
    destruct (pil_frombytes_error _ _ _ _ _ _); [discriminate|].
    intros [= <-]. reflexivity.
  - unfold open, enter_context, bind, emit, lift, alloc.
    intros ->. reflexivity.
Qed.

(** One turn of the loop, on a file that does not decode. *)
Lemma load_one_fail (file : string) (e : exn) (w : world) :
  decoded file = Raise e ->
  (if has_extension file [".heic"; ".heif"] then load_heif file
   else (let* opened := open file in enter_context opened)) w
  = (Raise e,
     {| heap := heap w; trace := trace w ++ [load_event file];
        exit_stack := exit_stack w |}).
Proof.
  unfold decoded, load_event. destruct (has_extension file _).
  - unfold load_heif, bind, emit, lift, frombytes, raise.
    destruct (pyheif_read file) as [hf|e'].
    + destruct (pil_frombytes_error _ _ _ _ _ _); [|discriminate].
      now intros [= <-].
    + now intros [= <-].
  - unfold open, enter_context, bind, emit, lift.
    now intros ->.
Qed.

Lemma load_images_ok (files : list string) :
  forall (ims : list image) (images : list ref) (w : world),
    Forall2 (fun file im => decoded file = Ok im) files ims ->
    load_images files images w
    = (Ok (images ++ seq (length (heap w)) (length files)),
       {| heap := heap w ++ ims; trace := trace w ++ map load_event files;
          exit_stack := rev (entered (length (heap w)) files) ++ exit_stack w |}).
Proof.
  induction files as [|file files IH]; intros ims images w Hdec.
  - apply Forall2_nil_inv_l in Hdec as ->. cbn. rewrite !app_nil_r. now destruct w.
  - apply Forall2_cons_inv_l in Hdec as (im & ims' & Him & Hdec & ->).
    cbn [load_images]. rewrite (bind_ok _ _ _ _ _ (load_one_ok file im w Him)).
    rewrite (IH ims' _ _ Hdec). cbn [heap trace exit_stack length seq map entered].
    rewrite length_app. cbn [length].
    replace (length (heap w) + 1)%nat with (S (length (heap w))) by lia.
    rewrite <- !app_assoc. cbn [app]. f_equal. f_equal.
    rewrite rev_app_distr, <- app_assoc. f_equal.
    now destruct (has_extension file _).
Qed.

Lemma load_images_fail (before : list string) (bad : string) (after : list string)
    (e : exn) :
  forall (ims : list image) (images : list ref) (w : world),
    Forall2 (fun file im => decoded file = Ok im) before ims ->
    decoded bad = Raise e ->
    load_images (before ++ bad :: after) images w
    = (Raise e,
       {| heap := heap w ++ ims; trace := trace w ++ map load_event (before ++ [bad]);
          exit_stack := rev (entered (length (heap w)) before) ++ exit_stack w |}).
Proof.
  induction before as [|file before IH]; intros ims images w Hdec Hbad.
  - apply Forall2_nil_inv_l in Hdec as ->. cbn [app load_images map entered rev].
    rewrite (bind_raise _ _ _ _ _ (load_one_fail bad e w Hbad)).
    now rewrite app_nil_r.
  - apply Forall2_cons_inv_l in Hdec as (im & ims' & Him & Hdec & ->).
    cbn [app load_images]. rewrite (bind_ok _ _ _ _ _ (load_one_ok file im w Him)).
    rewrite (IH ims' _ _ Hdec Hbad). cbn [heap trace exit_stack map entered app].
    rewrite length_app. cbn [length].
    replace (length (heap w) + 1)%nat with (S (length (heap w))) by lia.
    rewrite <- !app_assoc. cbn [app]. f_equal. f_equal.
    rewrite rev_app_distr, <- app_assoc. f_equal.
    now destruct (has_extension file _).
Qed.

(** X3: files are loaded in the order given, one new image object per
    file: when every file decodes, the loop returns the addresses of
    the new objects in the order of the files, the i-th object is what
    the i-th file decodes to, the external calls are made in the order
    of the files (pyheif for HEIF names, [PIL.Image.open] for the
    others), and only the images that Pillow opened are entered in the
    exit stack. *)
Theorem load_images_in_order (files : list string) (ims : list image) (w : world) :
  Forall2 (fun file im => decoded file = Ok im) files ims ->
  let w' := {| heap := heap w ++ ims; trace := trace w ++ map load_event files;
               exit_stack := rev (entered (length (heap w)) files) ++ exit_stack w |} in
  load_images files [] w = (Ok (seq (length (heap w)) (length files)), w') /\
  (forall i file,
      files !! i = Some file ->
      exists im, decoded file = Ok im /\
                 heap w' !! (length (heap w) + i)%nat = Some im) /\
  (forall r, In r (exit_stack w') ->
             In r (exit_stack w) \/
             exists i file, r = (length (heap w) + i)%nat /\ files !! i = Some file /\
                            has_extension file [".heic"; ".heif"] = false).
Proof.
  intros Hdec w'. split; [|split].
  - now rewrite (load_images_ok files ims [] w Hdec).
  - intros i file Hfile.
    destruct (Forall2_lookup_l _ _ _ _ _ Hdec Hfile) as (im & Him & Hd).
    exists im. split; [exact Hd|]. unfold w'. cbn [heap].
    rewrite lookup_app_r by lia.
    now replace (length (heap w) + i - length (heap w))%nat with i by lia.
  - intros r Hr. unfold w' in Hr. cbn [exit_stack] in Hr.
    apply in_app_or in Hr as [Hr|Hr]; [right | now left].
    apply in_rev in Hr. clear Hdec w'.
    revert Hr. generalize (length (heap w)) as start.
    induction files as [|file files IH]; intros start Hr; [destruct Hr|].
    cbn [entered] in Hr. apply in_app_or in Hr as [Hr|Hr].
    + destruct (has_extension file _) eqn:Hext; [destruct Hr|].
      destruct Hr as [<-|[]]. exists 0%nat, file.
      repeat split; [lia | exact Hext].
    + destruct (IH (S start) Hr) as (i & file' & -> & Hi & Hext).
      exists (S i), file'. repeat split; [lia | exact Hi | exact Hext].
Qed.

End LoadingFacts.

(** ** [images_to_pdf] from the first file to the last close *)

Section ImagesToPdfPaths.

Context {E : Externals}.

Lemma leave_exit_stack_spec {A} (outer : list ref) (r : result A) (w : world) :
  leave_exit_stack outer (r, w)
  = (r, {| heap := heap w; trace := trace w ++ map EvClose (exit_stack w);
           exit_stack := outer |}).
Proof. unfold leave_exit_stack. now rewrite close_all_spec. Qed.

(** X4: a file that does not decode ends the call with the exception of
    the decoder, and the images opened for the files before it are
    closed, the last opened first.  The files after it are not touched,
    no filter runs and nothing is saved. *)
Theorem images_to_pdf_load_failure_closes (before after : list string) (bad : string)
    (e : exn) (ims : list image) (outfile : string)
    (filters : option (list filter_fn)) (kwargs : gmap string pyval) (w : world) :
  kwargs !! "append_images" = None -> kwargs !! "save_all" = None ->
  Forall2 (fun file im => decoded file = Ok im) before ims ->
  decoded bad = Raise e ->
  images_to_pdf (before ++ bad :: after) outfile filters kwargs w
  = (Raise e,
     {| heap := heap w ++ ims;
        trace := trace w ++ map load_event (before ++ [bad])
                   ++ map EvClose (rev (entered (length (heap w)) before));
        exit_stack := exit_stack w |}).
Proof.
  intros Ha Hs Hdec Hbad.
  assert (Hload := load_images_fail before bad after e ims [] (enter_exit_stack w)
                     Hdec Hbad).
  unfold images_to_pdf.
  destruct (before ++ bad :: after) as [|file files] eqn:Hfiles;
    [now destruct before|].
  rewrite (bind_ok _ _ w w tt) by now apply check_reserved_absent.
  unfold with_exit_stack. rewrite (bind_raise _ _ _ _ _ Hload).
  rewrite leave_exit_stack_spec. cbn [heap trace exit_stack enter_exit_stack].
  now rewrite app_nil_r, <- app_assoc.
Qed.


(** X6: a filter chain may return any list; when it returns the empty
    list, [images[0]] raises [IndexError].  Nothing is saved, and the
    images in the exit stack are closed like on every other way out. *)
Theorem images_to_pdf_no_page_left (file outfile : string) (files : list string)
    (filters : list filter_fn) (kwargs : gmap string pyval) (w w1 w2 : world)
    (loaded : list ref) :
  kwargs !! "append_images" = None -> kwargs !! "save_all" = None ->
  load_images (file :: files) [] (enter_exit_stack w) = (Ok loaded, w1) ->
  run_filters filters loaded w1 = (Ok [], w2) ->
  images_to_pdf (file :: files) outfile (Some filters) kwargs w
  = (Raise (IndexError "list index out of range"),
     {| heap := heap w2; trace := trace w2 ++ map EvClose (exit_stack w2);
        exit_stack := exit_stack w |}).
Proof.
  intros Ha Hs Hload Hchain. unfold images_to_pdf.
  rewrite (bind_ok _ _ w w tt) by now apply check_reserved_absent.
  unfold with_exit_stack. rewrite (bind_ok _ _ _ _ _ Hload).
  rewrite (bind_ok _ _ _ _ _ Hchain). cbn [save_pdf]. unfold raise.
  apply leave_exit_stack_spec.
Qed.

End ImagesToPdfPaths.

(** ** More on [adjust_widths] *)

Section AdjustWidthsMore.

Context {E : Externals}.

(** *** What the call leaves alone *)

Lemma only_allocates_refl (w : world) : only_allocates w w.
Proof. repeat split. exists []. now rewrite app_nil_r. Qed.

Lemma only_allocates_trans (w1 w2 w3 : world) :
  only_allocates w1 w2 -> only_allocates w2 w3 -> only_allocates w1 w3.
Proof.
  intros (Ht & Hs & new & Hh) (Ht' & Hs' & new' & Hh'). repeat split; try congruence.
  exists (new ++ new'). now rewrite Hh', Hh, app_assoc.
Qed.

Lemma bind_only_allocates {A B} (m : M A) (k : A -> M B) (w : world) :
  only_allocates w (snd (m w)) ->
  (forall a w', only_allocates w' (snd (k a w'))) ->
  only_allocates w (snd (bind m k w)).
Proof.
  intros Hm Hk. unfold bind. destruct (m w) as [[a|e] w']; cbn [snd] in *;
    [|exact Hm].
  eapply only_allocates_trans; [exact Hm | apply Hk].
Qed.

Lemma deref_only_allocates (r : ref) (w : world) : only_allocates w (snd (deref r w)).
Proof. unfold deref. destruct (heap w !! r); apply only_allocates_refl. Qed.

Lemma resize_only_allocates (r : ref) (size : Z * Z) (resample : resampling) (w : world) :
  only_allocates w (snd (resize r size resample w)).
Proof.
  unfold resize. apply bind_only_allocates; [apply deref_only_allocates|].
  intros im w'. destruct (pil_resize_error im size resample);
    [apply only_allocates_refl|].
  unfold alloc. cbn [snd]. repeat split. now eexists.
Qed.




(** *** Pages of one width *)

(** Pages of one width, given what Pillow accepts. *)
Lemma adjust_widths_equal_widths_ok (images : list ref) (ims : list image)
    (common_width : Z) (resample : resampling) (w : world) :
  images <> [] -> 0 < common_width ->
  Forall2 (fun r im => heap w !! r = Some im) images ims ->
  Forall (fun im => width im = common_width /\ 0 <= height im < 2 ^ 53 /\
                    pil_resize_error im (im_size im) resample = None) ims ->
  adjust_widths images resample w
  = (Ok (seq (length (heap w)) (length images)),
     {| heap := heap w ++ map (fun im => resized_image im (im_size im) resample) ims;
        trace := trace w; exit_stack := exit_stack w |}).
Proof.
  intros Hne Hpos Hims Hsame.
  assert (Hmin : py_min (map width ims) = Ok common_width).
  { destruct Hims as [|r im images ims _ _]; [congruence|].
    cbn [map py_min]. apply Forall_cons in Hsame as [(Hw & _) Hsame].
    rewrite Hw. f_equal. apply fold_min_constant.
    apply Forall_map. eapply Forall_impl; [exact Hsame|]. now intros im' (Hw' & _). }
  unfold adjust_widths.
  rewrite (bind_ok _ _ _ _ _ (widths_ok images ims w Hims)).
  unfold bind at 1, lift. rewrite Hmin.
  rewrite (resize_each_ok common_width resample images ims (map height ims) [] w Hims).
  - cbn [app]. f_equal. f_equal. f_equal.
    clear Hims Hmin. induction Hsame as [|im ims (Hw & _) _ IH]; [reflexivity|].
    cbn [map zip_with]. rewrite IH. f_equal.
    unfold width, height in *. destruct (im_size im) as [wd ht]. cbn [fst snd] in *.
    now subst wd.
  - clear Hims Hmin. induction Hsame as [|im ims (Hw & Hh & Hok) _ IH];
      cbn [map]; constructor; [|exact IH].
    split.
    + rewrite Hw. now apply new_height_of_same_width.
    + unfold width, height in *. destruct (im_size im) as [wd ht]. cbn [fst snd] in *.
      now subst wd.
Qed.

(** *** A page of width zero *)

Lemma resize_each_zero_width (resample : resampling) (images : list ref) :
  forall (ims : list image) (new_images : list ref) (w : world),
    Forall2 (fun r im => heap w !! r = Some im) images ims ->
    Exists (fun im => width im = 0) ims ->
    exists e w', resize_each images 0 resample new_images w = (Raise e, w').
Proof.
  induction images as [|r images IH]; intros ims new_images w Hims Hzero.
  - apply Forall2_nil_inv_l in Hims as ->. inversion Hzero.
  - apply Forall2_cons_inv_l in Hims as (im & ims' & Hr & Hims & ->).
    cbn [resize_each]. unfold bind at 1, deref. rewrite Hr.
    assert (Hwd : width im = fst (im_size im)) by reflexivity.
    destruct (im_size im) as [wd ht]. cbn [fst] in Hwd.
    unfold bind at 1, lift.
    destruct (new_height_of 0 wd ht) as [nh|e] eqn:Hnh; [|now eexists _, _].
    apply Exists_cons in Hzero as [Hz|Hzero];
      [rewrite Hwd in Hz; subst wd; discriminate Hnh|].
    unfold bind at 1.
    destruct (resize r (0, nh) resample w) as [[r'|e] w1] eqn:Hres;
      [|now eexists _, _].
    apply (IH ims'); [|exact Hzero].
    pose proof (resize_only_allocates r (0, nh) resample w) as Hgrow.
    rewrite Hres in Hgrow. cbn [snd] in Hgrow. destruct Hgrow as (_ & _ & new & Hheap).
    eapply Forall2_impl; [exact Hims|]. intros r0 im0 Hr0. cbn beta in *.
    rewrite Hheap. now apply lookup_app_l_Some.
Qed.

(** X9: a page of width zero makes [adjust_widths] fail.  When no width
    is negative and one is zero, the least width is zero and the call
    ends by an exception on every path: [ZeroDivisionError] from
    [0 / 0] at the page of width zero, unless Pillow raises before. *)
Theorem adjust_widths_zero_width_fails (images : list ref) (ims : list image)
    (resample : resampling) (w : world) :
  Forall2 (fun r im => heap w !! r = Some im) images ims ->
  Forall (fun im => 0 <= width im) ims ->
  Exists (fun im => width im = 0) ims ->
  py_min (map width ims) = Ok 0 /\
  exists e w', adjust_widths images resample w = (Raise e, w').
Proof.
  intros Hims Hnonneg Hzero.
  assert (Hmin : py_min (map width ims) = Ok 0).
  { destruct ims as [|im ims]; [inversion Hzero|]. cbn [map py_min]. f_equal.
    pose proof (fold_min_le (map width ims) (width im)) as [Hle Hall].
    pose proof (fold_min_In (map width ims) (width im)) as Hin.
    change (In (fold_left Z.min (map width ims) (width im)) (map width (im :: ims))) in Hin.
    apply in_map_iff in Hin as (im' & Heq & Hin).
    rewrite Forall_forall in Hnonneg.
    pose proof (Hnonneg im' ltac:(now apply list_elem_of_In)) as Hge.
    apply Exists_exists in Hzero as (imz & Hinz & Hz).
    assert (fold_left Z.min (map width ims) (width im) <= 0).
    { apply list_elem_of_In in Hinz. destruct Hinz as [<-|Hinz]; [lia|].
      rewrite Forall_forall in Hall. rewrite <- Hz. apply Hall.
      apply list_elem_of_In, in_map, Hinz. }
    lia. }
  split; [exact Hmin|]. unfold adjust_widths.
  rewrite (bind_ok _ _ _ _ _ (widths_ok images ims w Hims)).
  unfold bind at 1, lift. rewrite Hmin.
  now apply (resize_each_zero_width resample images ims).
Qed.

End AdjustWidthsMore.

(** ** The new height is at most the old one *)

Section FloatBounds.

Import PyFloat.

(** *** Shifting right *)

Lemma iter_pos_nat {A} (f : A -> A) (n : positive) (x : A) :
  SpecFloat.iter_pos f n x = Nat.iter (Pos.to_nat n) f x.
Proof.
  revert x; induction n as [n IH|n IH|]; intros x; cbn [SpecFloat.iter_pos].
  - rewrite !IH, Pos2Nat.inj_xI, <- Nat.iter_add, <- Nat.iter_succ_r.
    f_equal. lia.
  - rewrite !IH, Pos2Nat.inj_xO, <- Nat.iter_add. f_equal. lia.
  - reflexivity.
Qed.

Lemma shr_1_div2 (mrs : shr_record) :
  0 <= shr_m mrs -> shr_m (shr_1 mrs) = shr_m mrs / 2.
Proof.
  intros Hm. rewrite <- Z.div2_div.
  destruct mrs as [[|[p|p|]|p] r s]; cbn in *; try reflexivity; lia.
Qed.

Lemma iter_shr_1_div (k : nat) (mrs : shr_record) :
  0 <= shr_m mrs ->
  0 <= shr_m (Nat.iter k shr_1 mrs) /\
  shr_m (Nat.iter k shr_1 mrs) = shr_m mrs / 2 ^ Z.of_nat k.
Proof.
  intros Hm. induction k as [|k [IH0 IH]].
  - change (Nat.iter 0 shr_1 mrs) with mrs. rewrite Z.pow_0_r, Z.div_1_r. now split.
  - rewrite Nat.iter_succ, shr_1_div2 by exact IH0. rewrite IH.
    rewrite Nat2Z.inj_succ, Z.pow_succ_r, Z.div_div by lia.
    rewrite (Z.mul_comm 2). split; [|reflexivity].
    apply Z.div_pos; [exact Hm | lia].
Qed.

Lemma iter_shr_1_exact (k : nat) (G : Z) :
  0 <= G ->
  Nat.iter k shr_1 {| shr_m := G * 2 ^ Z.of_nat k; shr_r := false; shr_s := false |}
  = {| shr_m := G; shr_r := false; shr_s := false |}.
Proof.
  intros HG. induction k as [|k IH].
  - rewrite Z.pow_0_r, Z.mul_1_r. reflexivity.
  - rewrite Nat.iter_succ_r.
    assert (Hstep : shr_1 {| shr_m := G * 2 ^ Z.of_nat (S k); shr_r := false;
                             shr_s := false |}
                    = {| shr_m := G * 2 ^ Z.of_nat k; shr_r := false; shr_s := false |}).
    { rewrite Nat2Z.inj_succ, Z.pow_succ_r by lia.
      assert (Ht : 0 <= G * 2 ^ Z.of_nat k) by lia.
      replace (G * (2 * 2 ^ Z.of_nat k)) with (2 * (G * 2 ^ Z.of_nat k)) by lia.
      now destruct (G * 2 ^ Z.of_nat k) as [|p|p]; [| |lia]. }
    rewrite Hstep. exact IH.
Qed.

(** The first step of rounding: the exponent goes up to [e1], the
    mantissa is divided by [2^(e1 - e)], and nothing is lost when the
    division is exact. *)
Lemma shr_fexp_div (m e : Z) (l : location) :
  0 <= m ->
  let e1 := Z.max e (fexp prec emax (Zdigits2 m + e)) in
  snd (shr_fexp prec emax m e l) = e1 /\
  shr_m (fst (shr_fexp prec emax m e l)) = m / 2 ^ (e1 - e) /\
  (l = loc_Exact -> m mod 2 ^ (e1 - e) = 0 ->
   loc_of_shr_record (fst (shr_fexp prec emax m e l)) = loc_Exact).
Proof.
  intros Hm e1. unfold shr_fexp, shr.
  assert (Hrec : shr_m (shr_record_of_loc m l) = m) by now destruct l as [|[]].
  destruct (fexp prec emax (Zdigits2 m + e) - e) as [|n|n] eqn:Hn; cbn [fst snd].
  - replace (e1 - e) with 0 by lia. rewrite Z.pow_0_r, Z.div_1_r, Hrec.
    repeat split; [lia|]. now intros ->.
  - rewrite iter_pos_nat. replace (e1 - e) with (Z.pos n) by lia.
    destruct (iter_shr_1_div (Pos.to_nat n) (shr_record_of_loc m l)) as [_ Hdiv];
      [lia|].
    rewrite positive_nat_Z, Hrec in Hdiv. repeat split; [lia | exact Hdiv|].
    intros -> Hmod. cbn [shr_record_of_loc].
    rewrite (Z.div_mod m (2 ^ Z.pos n)) at 1 by lia.
    rewrite Hmod, Z.add_0_r, Z.mul_comm, <- (positive_nat_Z n).
    rewrite iter_shr_1_exact; [reflexivity|]. apply Z.div_pos; lia.
  - replace (e1 - e) with 0 by lia. rewrite Z.pow_0_r, Z.div_1_r, Hrec.
    repeat split; [lia|]. now intros ->.
Qed.

Lemma round_nearest_even_le (m : Z) (l : location) :
  round_nearest_even m l <= m + excess l.
Proof. destruct l as [|[]]; cbn; try destruct (Z.even m); lia. Qed.

Lemma pow2_split (a b : Z) : 0 <= a -> 0 <= b -> 2 ^ (a + b) = 2 ^ a * 2 ^ b.
Proof. intros. now apply Z.pow_add_r. Qed.

(** *** Rounding below an int *)

(** A value of at most [n], with [n] an int that a float holds
    exactly, rounds to a float of at most [n]. *)
Lemma binary_round_aux_le_int (m e n : Z) (l : location) :
  0 <= m -> e <= 0 -> 0 <= n < 2 ^ 53 -> m + excess l <= n * 2 ^ (- e) ->
  binary_round_aux prec emax false m e l = S754_zero false \/
  exists m' e',
    binary_round_aux prec emax false m e l = S754_finite false m' e' /\
    float_le_int (Z.pos m') e' n.
Proof.
  intros Hm He Hn Hle. unfold binary_round_aux.
  (* the first shift *)
  destruct (shr_fexp_div m e l Hm) as (He1 & Hm1 & Hex1).
  destruct (shr_fexp prec emax m e l) as [mrs1 e1]. cbn [fst snd] in He1, Hm1, Hex1.
  rewrite <- He1 in Hm1, Hex1.
  assert (Hpe : 0 < 2 ^ (- e)) by (apply Z.pow_pos_nonneg; lia).
  assert (HmB : m < 2 ^ (53 - e)).
  { replace (53 - e) with (53 + - e) by lia. rewrite pow2_split by lia.
    assert (excess l >= 0) by (destruct l; cbn; lia). nia. }
  pose proof (Zdigits2_le m (53 - e) ltac:(lia) ltac:(lia)) as Hd.
  rewrite fexp_eq in He1.
  assert (He1' : e <= e1 <= 0) by lia.
  set (k := e1 - e) in *. assert (Hk : 0 <= k) by lia.
  assert (Hpk : 0 < 2 ^ k) by (apply Z.pow_pos_nonneg; lia).
  assert (Hp1 : 0 < 2 ^ (- e1)) by (apply Z.pow_pos_nonneg; lia).
  assert (Hsplit : 2 ^ (- e) = 2 ^ (- e1) * 2 ^ k).
  { rewrite <- pow2_split by lia. f_equal. lia. }
  set (G := n * 2 ^ (- e1)).
  assert (HG : m + excess l <= G * 2 ^ k) by (unfold G; rewrite <- Z.mul_assoc, <- Hsplit; exact Hle).
  set (m2 := round_nearest_even (shr_m mrs1) (loc_of_shr_record mrs1)).
  assert (Hm1nn : 0 <= shr_m mrs1) by (rewrite Hm1; apply Z.div_pos; lia).
  assert (Hm2 : 0 <= m2 <= G).
  { split.
    - unfold m2. destruct (loc_of_shr_record mrs1) as [|[]]; cbn;
        try destruct (Z.even (shr_m mrs1)); lia.
    - pose proof (round_nearest_even_le (shr_m mrs1) (loc_of_shr_record mrs1)) as Hr.
      fold m2 in Hr.
      pose proof (Z.div_mod m (2 ^ k) ltac:(lia)) as Hdm.
      pose proof (Z.mod_pos_bound m (2 ^ k) Hpk) as Hmod.
      destruct (Z.eq_dec (m mod 2 ^ k) 0) as [Hz|Hnz].
      + destruct l as [|c].
        * rewrite (Hex1 eq_refl Hz) in Hr. cbn [excess] in *. rewrite Hm1 in Hr. nia.
        * assert (excess (loc_of_shr_record mrs1) <= 1)
            by (destruct (loc_of_shr_record mrs1); cbn; lia).
          cbn [excess] in HG. rewrite Hm1 in Hr. nia.
      + assert (excess (loc_of_shr_record mrs1) <= 1)
          by (destruct (loc_of_shr_record mrs1); cbn; lia).
        assert (excess l >= 0) by (destruct l; cbn; lia).
        rewrite Hm1 in Hr. nia. }
  (* the second shift *)
  destruct (shr_fexp_div m2 e1 loc_Exact ltac:(lia)) as (He3 & Hm3 & _).
  destruct (shr_fexp prec emax m2 e1 loc_Exact) as [mrs3 e3]. cbn [fst snd] in He3, Hm3.
  rewrite <- He3 in Hm3.
  assert (Hm2B : m2 < 2 ^ (53 - e1)).
  { replace (53 - e1) with (53 + - e1) by lia. rewrite pow2_split by lia.
    unfold G in Hm2. nia. }
  pose proof (Zdigits2_le m2 (53 - e1) ltac:(lia) ltac:(lia)) as Hd2.
  rewrite fexp_eq in He3.
  assert (He3' : e1 <= e3 <= 0) by lia.
  set (j := e3 - e1) in *. assert (Hj : 0 <= j) by lia.
  assert (Hpj : 0 < 2 ^ j) by (apply Z.pow_pos_nonneg; lia).
  assert (Hsplit3 : 2 ^ (- e1) = 2 ^ (- e3) * 2 ^ j).
  { rewrite <- pow2_split by lia. f_equal. lia. }
  assert (Hm3le : shr_m mrs3 <= n * 2 ^ (- e3)).
  { rewrite Hm3. apply Z.div_le_upper_bound; [exact Hpj|].
    unfold G in Hm2. rewrite Hsplit3 in Hm2. lia. }
  destruct (shr_m mrs3) as [|p|p] eqn:Hp; [now left | |].
  - right. exists p, e3.
    replace (e3 <=? emax - prec) with true
      by (symmetry; apply Z.leb_le; unfold emax, prec; lia).
    split; [reflexivity|]. unfold float_le_int.
    destruct (0 <=? e3) eqn:H0; [|exact Hm3le].
    apply Z.leb_le in H0. replace e3 with 0 in * by lia. cbn in Hm3le. lia.
  - exfalso. assert (0 <= m2 / 2 ^ j) by (apply Z.div_pos; lia). lia.
Qed.

(** *** The ratio, the product and the rounded product *)

Lemma float_le_one (m : positive) (e : Z) :
  float_le_int (Z.pos m) e 1 -> e <= 0 /\ Z.pos m <= 2 ^ (- e).
Proof.
  unfold float_le_int. destruct (0 <=? e) eqn:H0.
  - apply Z.leb_le in H0. intros Hle.
    assert (e = 0 \/ 0 < e) as [->|Hpos] by lia; [cbn in *; lia|].
    assert (2 ^ 1 <= 2 ^ e) by (apply Z.pow_le_mono_r; lia).
    change (2 ^ 1) with 2 in *. nia.
  - apply Z.leb_gt in H0. intros Hle. split; lia.
Qed.

(** [a / b] with [0 < a <= b] is a float of at most [1.0]. *)
Lemma int_truediv_le_one (a b : positive) :
  Z.pos a <= Z.pos b ->
  exists x,
    int_truediv (Z.pos a) (Z.pos b) = Ok x /\
    (x = S754_zero false \/
     exists m e, x = S754_finite false m e /\ float_le_int (Z.pos m) e 1).
Proof.
  intros Hab. unfold int_truediv. change (Z.abs (Z.pos a)) with (Z.pos a).
  change (Z.abs (Z.pos b)) with (Z.pos b).
  change (xorb (Z.pos a <? 0) (Z.pos b <? 0)) with false.
  rewrite SFdiv_core_binary_int.
  set (e' := Z.min (fexp prec emax (Zdigits2 (Z.pos a) - Zdigits2 (Z.pos b))) 0).
  assert (He' : e' <= 0) by apply Z.le_min_r.
  assert (Hpow : 0 < 2 ^ (- e')) by (apply Z.pow_pos_nonneg; lia).
  set (m' := Z.pos a * 2 ^ (- e')).
  pose proof (Z.div_mod m' (Z.pos b) ltac:(lia)) as Hdm.
  pose proof (Z.mod_pos_bound m' (Z.pos b) ltac:(lia)) as Hmod.
  assert (Hq : 0 <= m' / Z.pos b) by (apply Z.div_pos; lia).
  assert (Hle : m' / Z.pos b + excess (new_location (Z.pos b) (m' mod Z.pos b))
                <= 1 * 2 ^ (- e')).
  { destruct (Z.eq_dec (m' mod Z.pos b) 0) as [Hz|Hnz].
    - rewrite Hz.
      assert (Hloc : new_location (Z.pos b) 0 = loc_Exact)
        by (unfold new_location; now destruct (Z.even (Z.pos b))).
      rewrite Hloc. cbn [excess]. unfold m' in *. nia.
    - assert (excess (new_location (Z.pos b) (m' mod Z.pos b)) <= 1)
        by (destruct (new_location _ _); cbn; lia).
      unfold m' in *. nia. }
  destruct (binary_round_aux_le_int (m' / Z.pos b) e' 1
              (new_location (Z.pos b) (m' mod Z.pos b)) Hq He' ltac:(lia) Hle)
    as [Hz|(m & e & Hf & Hm)].
  - rewrite Hz. eexists; split; [reflexivity | now left].
  - rewrite Hf. eexists; split; [reflexivity|]. right. now exists m, e.
Qed.

(** An int times a float of at most [1.0] is a float of at most the
    int. *)
Lemma int_mul_le (h : Z) (x : float) :
  0 <= h < 2 ^ 53 ->
  (x = S754_zero false \/
   exists m e, x = S754_finite false m e /\ float_le_int (Z.pos m) e 1) ->
  exists y,
    int_mul h x = Ok y /\
    (y = S754_zero false \/
     exists m e, y = S754_finite false m e /\ float_le_int (Z.pos m) e h).
Proof.
  intros Hh Hx. unfold int_mul. destruct h as [|ph|ph]; [| |lia].
  - exists (S754_zero false).
    destruct Hx as [->|(m & e & -> & _)]; split; try reflexivity; now left.
  - destruct (of_int_exact ph) as (mh & eh & Hof & _ & Heh & Hmh); [lia|].
    rewrite Hof. destruct Hx as [->|(mx & ex & -> & Hle1)].
    + exists (S754_zero false). split; [reflexivity | now left].
    + apply float_le_one in Hle1 as [Hex Hmx]. cbn [SFmul xorb].
      assert (Hpx : 0 < 2 ^ (- ex)) by (apply Z.pow_pos_nonneg; lia).
      assert (Hph : 0 < 2 ^ (- eh)) by (apply Z.pow_pos_nonneg; lia).
      assert (Hprod : Z.pos (mh * mx) + excess loc_Exact
                      <= Z.pos ph * 2 ^ (- (eh + ex))).
      { cbn [excess]. rewrite Pos2Z.inj_mul, Hmh.
        replace (- (eh + ex)) with (- eh + - ex) by lia.
        rewrite pow2_split by lia. nia. }
      destruct (binary_round_aux_le_int (Z.pos (mh * mx)) (eh + ex) (Z.pos ph)
                  loc_Exact ltac:(lia) ltac:(lia) Hh Hprod)
        as [Hz|(m & e & Hf & Hm)].
      * rewrite Hz. eexists; split; [reflexivity | now left].
      * rewrite Hf. eexists; split; [reflexivity|]. right. now exists m, e.
Qed.

(** [round] of a float of at most the int [n] is between [0] and
    [n]. *)
Lemma round_le_int (m : positive) (e n : Z) :
  float_le_int (Z.pos m) e n ->
  exists z, round (S754_finite false m e) = Ok z /\ 0 <= z <= n.
Proof.
  unfold float_le_int, round, round_half_even. cbn [cond_Zopp].
  destruct (0 <=? e) eqn:H0.
  - apply Z.leb_le in H0. intros Hle. eexists; split; [reflexivity|].
    assert (0 < 2 ^ e) by (apply Z.pow_pos_nonneg; lia). nia.
  - apply Z.leb_gt in H0. intros Hle.
    assert (Hd : 0 < 2 ^ (- e)) by (apply Z.pow_pos_nonneg; lia).
    pose proof (Z.div_mod (Z.pos m) (2 ^ (- e)) ltac:(lia)) as Hdm.
    pose proof (Z.mod_pos_bound (Z.pos m) (2 ^ (- e)) Hd) as Hmod.
    assert (Hq : 0 <= Z.pos m / 2 ^ (- e)) by (apply Z.div_pos; lia).
    eexists; split; [reflexivity|].
    destruct (2 * (Z.pos m mod 2 ^ (- e)) ?= 2 ^ (- e)) eqn:Hc.
    + apply Z.compare_eq in Hc. destruct (Z.even (Z.pos m / 2 ^ (- e))); nia.
    + nia.
    + apply Z.compare_gt_iff in Hc. nia.
Qed.

(** The new height is computed and lies between zero and the old
    height, whenever the least width is positive and at most the
    width. *)
Lemma new_height_of_bounds (min_width width height : Z) :
  0 < min_width <= width -> 0 <= height < 2 ^ 53 ->
  exists new_height,
    new_height_of min_width width height = Ok new_height /\
    0 <= new_height <= height.
Proof.
  intros Hw Hh. unfold new_height_of.
  destruct min_width as [|a|a]; try lia. destruct width as [|b|b]; try lia.
  destruct (int_truediv_le_one a b) as (x & -> & Hx); [lia|].
  destruct (int_mul_le height x Hh Hx) as (y & -> & [->|(m & e & -> & Hy)]).
  - exists 0. split; [reflexivity | lia].
  - now apply round_le_int.
Qed.

End FloatBounds.

(** ** [adjust_widths] never enlarges a page *)

Section AdjustWidthsBounds.

Context {E : Externals}.

(** The call, given the least width and the heights. *)
Lemma adjust_widths_ok (images : list ref) (ims : list image) (heights : list Z)
    (min_width : Z) (resample : resampling) (w : world) :
  Forall2 (fun r im => heap w !! r = Some im) images ims ->
  py_min (map width ims) = Ok min_width ->
  Forall2 (fun im nh =>
             new_height_of min_width (width im) (height im) = Ok nh /\
             pil_resize_error im (min_width, nh) resample = None) ims heights ->
  adjust_widths images resample w
  = (Ok (seq (length (heap w)) (length images)),
     {| heap := heap w ++
                zip_with (fun im nh => resized_image im (min_width, nh) resample)
                  ims heights;
        trace := trace w; exit_stack := exit_stack w |}).
Proof.
  intros Hims Hmin Hheights. unfold adjust_widths.
  rewrite (bind_ok _ _ _ _ _ (widths_ok images ims w Hims)).
  unfold bind at 1, lift. rewrite Hmin.
  now rewrite (resize_each_ok min_width resample images ims heights [] w Hims Hheights).
Qed.

(** The least width of pages of positive width is positive and at most
    every width. *)
Lemma py_min_positive (im : image) (ims : list image) :
  Forall (fun im => 0 < width im) (im :: ims) ->
  exists min_width,
    py_min (map width (im :: ims)) = Ok min_width /\
    Forall (fun im => 0 < min_width <= width im) (im :: ims).
Proof.
  intros Hpos. exists (fold_left Z.min (map width ims) (width im)).
  split; [reflexivity|].
  pose proof (fold_min_le (map width ims) (width im)) as [Hle Hall].
  pose proof (fold_min_In (map width ims) (width im)) as Hin.
  change (In (fold_left Z.min (map width ims) (width im)) (map width (im :: ims))) in Hin.
  apply in_map_iff in Hin as (im' & Heq & Hin).
  rewrite Forall_forall in Hpos.
  pose proof (Hpos im' ltac:(now apply list_elem_of_In)) as Hp.
  rewrite Forall_map in Hall.
  constructor; [lia|].
  eapply Forall_impl; [exact Hall|]. intros im0 H0. cbn beta in H0. lia.
Qed.

Lemma bounded_heights_exist (min_width : Z) (ims : list image) :
  Forall (fun im => 0 < min_width <= width im /\ 0 <= height im < 2 ^ 53) ims ->
  exists heights,
    Forall2 (fun im nh =>
               new_height_of min_width (width im) (height im) = Ok nh /\
               0 <= nh <= height im) ims heights.
Proof.
  induction 1 as [|im ims (Hw & Hh) _ [heights IH]].
  - exists []. constructor.
  - destruct (new_height_of_bounds min_width (width im) (height im) Hw Hh)
      as (nh & Hnh & Hb).
    exists (nh :: heights). now constructor.
Qed.

(** X10: [adjust_widths] never enlarges a page.  For pages of positive
    width, when Pillow accepts the requested sizes, the float
    computation of every new height succeeds, every output has the
    least input width, which is at most the width of its input, and a
    height between zero and the height of its input. *)
Theorem adjust_widths_never_enlarges (images : list ref) (ims : list image)
    (resample : resampling) (w : world) :
  images <> [] ->
  Forall2 (fun r im => heap w !! r = Some im) images ims ->
  Forall (fun im => 0 < width im /\ 0 <= height im < 2 ^ 53) ims ->
  (forall im min_width nh,
      In im ims -> py_min (map width ims) = Ok min_width ->
      new_height_of min_width (width im) (height im) = Ok nh ->
      pil_resize_error im (min_width, nh) resample = None) ->
  exists min_width heights,
    py_min (map width ims) = Ok min_width /\
    adjust_widths images resample w
    = (Ok (seq (length (heap w)) (length images)),
       {| heap := heap w ++
                  zip_with (fun im nh => resized_image im (min_width, nh) resample)
                    ims heights;
          trace := trace w; exit_stack := exit_stack w |}) /\
    Forall2 (fun im nh =>
               0 < min_width <= width im /\ 0 <= nh <= height im /\
               new_height_of min_width (width im) (height im) = Ok nh) ims heights.
Proof.
  intros Hne Hims Hsizes Hpillow.
  destruct ims as [|im0 ims0];
    [apply Forall2_nil_inv_r in Hims; congruence|].
  destruct (py_min_positive im0 ims0) as (min_width & Hmin & Hmw).
  { eapply Forall_impl; [exact Hsizes|]. now intros im (Hp & _). }
  destruct (bounded_heights_exist min_width (im0 :: ims0)) as [heights Hheights].
  { rewrite Forall_forall in *. intros im Him. split; [now apply Hmw|].
    now apply Hsizes. }
  exists min_width, heights. split; [exact Hmin|]. split.
  - apply adjust_widths_ok; [exact Hims | exact Hmin|].
    apply Forall2_same_length_lookup. split; [eapply Forall2_length; exact Hheights|].
    intros i im nh Him Hnh.
    destruct (Forall2_lookup_lr _ _ _ _ _ _ Hheights Him Hnh) as [Hh _].
    split; [exact Hh|]. apply Hpillow; [|exact Hmin | exact Hh].
    apply list_elem_of_In. eapply list_elem_of_lookup_2. exact Him.
  - apply Forall2_same_length_lookup. split; [eapply Forall2_length; exact Hheights|].
    intros i im nh Him Hnh.
    destruct (Forall2_lookup_lr _ _ _ _ _ _ Hheights Him Hnh) as [Hh Hb].
    rewrite Forall_forall in Hmw.
    split; [apply Hmw; eapply list_elem_of_lookup_2; exact Him|]. now split.
Qed.

End AdjustWidthsBounds.

(** ** The grayscale filter *)

Section Grayscale.

Context {E : Externals} {D : DriverExternals}.

Lemma convert_ok (r : ref) (im : image) (mode : string) (data : pixels) (w : world) :
  heap w !! r = Some im -> pil_convert im mode = Ok data ->
  convert r mode w
  = (Ok (length (heap w)),
     {| heap := heap w ++ [converted_image im mode data]; trace := trace w;
        exit_stack := exit_stack w |}).
Proof. intros Hr Hok. unfold convert, bind, deref. now rewrite Hr, Hok. Qed.

Lemma to_grayscale_ok (images : list ref) :
  forall (ims : list image) (datas : list pixels) (w : world),
    Forall2 (fun r im => heap w !! r = Some im) images ims ->
    Forall2 (fun im data => pil_convert im "L" = Ok data) ims datas ->
    to_grayscale images w
    = (Ok (seq (length (heap w)) (length images)),
       {| heap := heap w ++
                  zip_with (fun im data => converted_image im "L" data) ims datas;
          trace := trace w; exit_stack := exit_stack w |}).
Proof.
  induction images as [|r images IH]; intros ims datas w Hims Hdatas.
  - apply Forall2_nil_inv_l in Hims as ->.
    apply Forall2_nil_inv_l in Hdatas as ->.
    cbn. rewrite app_nil_r. now destruct w.
  - apply Forall2_cons_inv_l in Hims as (im & ims' & Hr & Hims & ->).
    apply Forall2_cons_inv_l in Hdatas as (data & datas' & Hok & Hdatas & ->).
    cbn [to_grayscale].
    rewrite (bind_ok _ _ _ _ _ (convert_ok r im "L" data w Hr Hok)).
    set (w1 := {| heap := heap w ++ [converted_image im "L" data]; trace := trace w;
                  exit_stack := exit_stack w |}).
    assert (Hims1 : Forall2 (fun r im => heap w1 !! r = Some im) images ims').
    { eapply Forall2_impl; [exact Hims|]. intros r' im' Hr'. cbn beta in *.
      unfold w1. cbn [heap]. now apply lookup_app_l_Some. }
    rewrite (bind_ok _ _ _ _ _ (IH ims' datas' w1 Hims1 Hdatas)). unfold w1.
    cbn [heap trace exit_stack length seq zip_with]. unfold ret.
    rewrite length_app. cbn [length].
    replace (length (heap w) + 1)%nat with (S (length (heap w))) by lia.
    now rewrite <- app_assoc.
Qed.

(** The new objects of a call are found at the new addresses. *)
Lemma fresh_lookup (old new : list image) :
  Forall2 (fun r im => (old ++ new) !! r = Some im)
    (seq (length old) (length new)) new.
Proof.
  apply Forall2_same_length_lookup. split; [apply length_seq|].
  intros i r im Hr Him. apply lookup_seq in Hr as [-> _].
  now rewrite lookup_app_r, Nat.add_comm, Nat.add_sub by lia.
Qed.

Lemma modes_and_sizes_lookup (w : world) (refs : list ref) (ims : list image) :
  Forall2 (fun r im => heap w !! r = Some im) refs ims ->
  modes_and_sizes w refs = map (fun im => Some (im_mode im, im_size im)) ims.
Proof.
  unfold modes_and_sizes. induction 1 as [|r im refs ims Hr _ IH]; [reflexivity|].
  cbn [map]. now rewrite Hr, IH.
Qed.

Lemma modes_and_sizes_fresh (old new : list image) (t : list event) (s : list ref) :
  modes_and_sizes {| heap := old ++ new; trace := t; exit_stack := s |}
    (seq (length old) (length new))
  = map (fun im => Some (im_mode im, im_size im)) new.
Proof. apply modes_and_sizes_lookup. cbn [heap]. apply fresh_lookup. Qed.

(** X11: the grayscale filter of [main] keeps the number, the order and
    the sizes of the pages and gives every page the mode [L]; it
    returns new image objects and changes none that existed. *)
Theorem to_grayscale_keeps_sizes (images : list ref) (ims : list image)
    (datas : list pixels) (w : world) :
  Forall2 (fun r im => heap w !! r = Some im) images ims ->
  Forall2 (fun im data => pil_convert im "L" = Ok data) ims datas ->
  let new_images := seq (length (heap w)) (length images) in
  let w' := {| heap := heap w ++
                       zip_with (fun im data => converted_image im "L" data) ims datas;
               trace := trace w; exit_stack := exit_stack w |} in
  to_grayscale images w = (Ok new_images, w') /\
  modes_and_sizes w' new_images = map (fun im => Some ("L", im_size im)) ims /\
  (forall r im, heap w !! r = Some im -> heap w' !! r = Some im).
Proof.
  intros Hims Hdatas new_images w'. split; [|split].
  - now apply to_grayscale_ok.
  - unfold new_images, w'.
    assert (Hlen : length images
                   = length (zip_with (fun im data => converted_image im "L" data)
                               ims datas)).
    { rewrite length_zip_with.
      rewrite (Forall2_length _ _ _ Hims), <- (Forall2_length _ _ _ Hdatas). lia. }
    rewrite Hlen, modes_and_sizes_fresh. clear Hims Hlen new_images w'.
    induction Hdatas as [|im data ims datas _ _ IH]; [reflexivity|].
    cbn [zip_with map]. now rewrite IH.
  - intros r im Hr. unfold w'. cbn [heap]. now apply lookup_app_l_Some.
Qed.

End Grayscale.

(** ** The two filters of [main] in either order *)

Section FilterOrder.

Context {E : Externals} {D : DriverExternals}.

Lemma conversions_exist (ims : list image) :
  (forall im, exists data, pil_convert im "L" = Ok data) ->
  exists datas, Forall2 (fun im data => pil_convert im "L" = Ok data) ims datas.
Proof.
  intros Hconv. induction ims as [|im ims [datas IH]].
  - exists []. constructor.
  - destruct (Hconv im) as [data Hdata]. exists (data :: datas). now constructor.
Qed.

Lemma map_zip_with_l {A B C F} (f : A -> B -> C) (g : C -> F) (h : A -> F)
    (l : list A) (k : list B) :
  length l = length k -> (forall x y, g (f x y) = h x) ->
  map g (zip_with f l k) = map h l.
Proof.
  intros Hlen Hgf. revert k Hlen; induction l as [|x l IH]; intros [|y k] Hlen;
    try discriminate; [reflexivity|].
  cbn [zip_with map]. rewrite Hgf, IH; [reflexivity|]. now injection Hlen.
Qed.

Lemma map_zip_with_r {A B C F} (f : A -> B -> C) (g : C -> F) (h : B -> F)
    (l : list A) (k : list B) :
  length l = length k -> (forall x y, g (f x y) = h y) ->
  map g (zip_with f l k) = map h k.
Proof.
  intros Hlen Hgf. revert k Hlen; induction l as [|x l IH]; intros [|y k] Hlen;
    try discriminate; [reflexivity|].
  cbn [zip_with map]. rewrite Hgf, IH; [reflexivity|]. now injection Hlen.
Qed.

(** Adjusting the widths and then converting, given the least width,
    the heights and the converted pixels. *)
Lemma adjust_then_grayscale (images : list ref) (ims : list image) (heights : list Z)
    (datas : list pixels) (min_width : Z) (resample : resampling) (w : world) :
  let resized :=
    zip_with (fun im nh => resized_image im (min_width, nh) resample) ims heights in
  let converted := zip_with (fun im data => converted_image im "L" data) resized datas in
  let w' := {| heap := (heap w ++ resized) ++ converted; trace := trace w;
               exit_stack := exit_stack w |} in
  Forall2 (fun r im => heap w !! r = Some im) images ims ->
  py_min (map width ims) = Ok min_width ->
  Forall2 (fun im nh =>
             new_height_of min_width (width im) (height im) = Ok nh /\
             pil_resize_error im (min_width, nh) resample = None) ims heights ->
  Forall2 (fun im data => pil_convert im "L" = Ok data) resized datas ->
  run_filters [fun images => adjust_widths images resample; to_grayscale] images w
  = (Ok (seq (length (heap w ++ resized)) (length images)), w') /\
  modes_and_sizes w' (seq (length (heap w ++ resized)) (length images))
  = map (fun nh => Some ("L", (min_width, nh))) heights.
Proof.
  intros R C1 w' Hims Hmin Hresize Hdatas.
  assert (Hlen_h : length ims = length heights) by (eapply Forall2_length; exact Hresize).
  assert (Hlen_i : length images = length ims) by (eapply Forall2_length; exact Hims).
  assert (HlenR : length R = length images)
    by (unfold R; rewrite length_zip_with; lia).
  assert (HlenC1 : length C1 = length images).
  { unfold C1. rewrite length_zip_with, <- (Forall2_length _ _ _ Hdatas). lia. }
  split.
  - cbn [run_filters].
    rewrite (bind_ok _ _ _ _ _ (adjust_widths_ok images ims heights min_width resample w
                                  Hims Hmin Hresize)).
    fold R. rewrite bind_ret_r.
    rewrite (to_grayscale_ok _ R datas).
    + cbn [heap trace exit_stack]. now rewrite length_seq.
    + cbn [heap]. rewrite <- HlenR. apply fresh_lookup.
    + exact Hdatas.
  - unfold w'. rewrite <- HlenC1. rewrite modes_and_sizes_fresh. unfold C1.
    rewrite (map_zip_with_l _ _ (fun im => Some ("L", im_size im)));
      [|eapply Forall2_length; exact Hdatas | reflexivity].
    unfold R. apply map_zip_with_r; [exact Hlen_h | reflexivity].
Qed.

(** X12: the order of the two filters does not matter for the modes
    and sizes of the pages.  For pages of positive width, when Pillow
    converts every image to [L] and accepts or refuses a resize by the
    sizes alone, adjusting the widths and then converting gives pages
    of the same modes and sizes as converting and then adjusting: mode
    [L], the least input width, and the height computed from the input
    size. *)
Theorem grayscale_and_adjust_widths_commute (images : list ref) (ims : list image)
    (resample : resampling) (w : world) :
  images <> [] ->
  Forall2 (fun r im => heap w !! r = Some im) images ims ->
  Forall (fun im => 0 < width im /\ 0 <= height im < 2 ^ 53) ims ->
  (forall im, exists data, pil_convert im "L" = Ok data) ->
  (forall im im' size,
      im_size im = im_size im' ->
      pil_resize_error im size resample = pil_resize_error im' size resample) ->
  (forall im min_width nh,
      In im ims -> py_min (map width ims) = Ok min_width ->
      new_height_of min_width (width im) (height im) = Ok nh ->
      pil_resize_error im (min_width, nh) resample = None) ->
  exists min_width heights out1 w1 out2 w2,
    py_min (map width ims) = Ok min_width /\
    Forall2 (fun im nh => new_height_of min_width (width im) (height im) = Ok nh)
      ims heights /\
    run_filters [fun images => adjust_widths images resample; to_grayscale] images w
    = (Ok out1, w1) /\
    run_filters [to_grayscale; fun images => adjust_widths images resample] images w
    = (Ok out2, w2) /\
    modes_and_sizes w1 out1 = map (fun nh => Some ("L", (min_width, nh))) heights /\
    modes_and_sizes w2 out2 = map (fun nh => Some ("L", (min_width, nh))) heights.
Proof.
  intros Hne Hims Hsizes Hconv Hsize_only Hpillow.
  destruct ims as [|im0 ims0];
    [apply Forall2_nil_inv_r in Hims; congruence|].
  set (ims := im0 :: ims0) in *.
  destruct (py_min_positive im0 ims0) as (min_width & Hmin & Hmw).
  { eapply Forall_impl; [exact Hsizes|]. now intros im (Hp & _). }
  fold ims in Hmin, Hmw.
  destruct (bounded_heights_exist min_width ims) as [heights Hheights].
  { rewrite Forall_forall in *. intros im Him. split; [now apply Hmw|].
    now apply Hsizes. }
  assert (Hlen_h : length ims = length heights) by (eapply Forall2_length; exact Hheights).
  assert (Hlen_i : length images = length ims) by (eapply Forall2_length; exact Hims).
  assert (Hresize : Forall2 (fun im nh =>
                      new_height_of min_width (width im) (height im) = Ok nh /\
                      pil_resize_error im (min_width, nh) resample = None) ims heights).
  { apply Forall2_same_length_lookup. split; [exact Hlen_h|].
    intros i im nh Him Hnh.
    destruct (Forall2_lookup_lr _ _ _ _ _ _ Hheights Him Hnh) as [Hh _].
    split; [exact Hh|]. apply Hpillow; [|exact Hmin | exact Hh].
    apply list_elem_of_In. eapply list_elem_of_lookup_2. exact Him. }
  (* adjust the widths, then convert *)
  set (R := zip_with (fun im nh => resized_image im (min_width, nh) resample) ims heights).
  destruct (conversions_exist R Hconv) as [datas1 Hdatas1].
  destruct (adjust_then_grayscale images ims heights datas1 min_width resample w
              Hims Hmin Hresize Hdatas1) as [Hrun1 Hmodes1].
  (* convert, then adjust the widths *)
  destruct (conversions_exist ims Hconv) as [datas2 Hdatas2].
  set (G := zip_with (fun im data => converted_image im "L" data) ims datas2).
  assert (HlenG : length G = length images).
  { unfold G. rewrite length_zip_with, <- (Forall2_length _ _ _ Hdatas2). lia. }
  assert (HwidthG : map width G = map width ims).
  { unfold G. apply map_zip_with_l; [eapply Forall2_length; exact Hdatas2|].
    reflexivity. }
  assert (HresizeG : Forall2 (fun im nh =>
                      new_height_of min_width (width im) (height im) = Ok nh /\
                      pil_resize_error im (min_width, nh) resample = None) G heights).
  { apply Forall2_same_length_lookup. split; [lia|].
    intros i g nh Hg Hnh. unfold G in Hg. rewrite lookup_zip_with in Hg.
    destruct (ims !! i) as [im|] eqn:Him; [|discriminate Hg].
    destruct (datas2 !! i) as [data|]; [|discriminate Hg].
    cbn in Hg. injection Hg as <-.
    destruct (Forall2_lookup_lr _ _ _ _ _ _ Hresize Him Hnh) as [Hh Hok].
    split; [exact Hh|].
    now rewrite (Hsize_only (converted_image im "L" data) im (min_width, nh) eq_refl). }
  set (R2 := zip_with (fun im nh => resized_image im (min_width, nh) resample) G heights).
  assert (Hrun2 :
    run_filters [to_grayscale; fun images => adjust_widths images resample] images w
    = (Ok (seq (length (heap w ++ G)) (length images)),
       {| heap := (heap w ++ G) ++ R2; trace := trace w; exit_stack := exit_stack w |})).
  { cbn [run_filters].
    rewrite (bind_ok _ _ _ _ _ (to_grayscale_ok images ims datas2 w Hims Hdatas2)).
    fold G. rewrite bind_ret_r.
    rewrite (adjust_widths_ok _ G heights min_width resample).
    - cbn [heap trace exit_stack]. now rewrite length_seq.
    - cbn [heap]. rewrite <- HlenG. apply fresh_lookup.
    - now rewrite HwidthG.
    - exact HresizeG. }
  exists min_width, heights. eexists _, _, _, _.
  split; [exact Hmin|]. split.
  { eapply Forall2_impl; [exact Hheights|]. now intros im nh [Hh _]. }
  split; [exact Hrun1|]. split; [exact Hrun2|]. split.
  - exact Hmodes1.
  - assert (HlenR2 : length R2 = length images)
      by (unfold R2; rewrite length_zip_with; lia).
    rewrite <- HlenR2. rewrite modes_and_sizes_fresh. unfold R2.
    assert (Hmode : Forall (fun g => im_mode g = "L") G).
    { unfold G. clear. revert datas2. induction ims as [|im ims IH];
        intros [|data datas2]; cbn [zip_with]; constructor; [reflexivity | apply IH]. }
    clear - Hmode HlenG Hlen_h Hlen_i. revert heights Hlen_h HlenG.
    rewrite <- Hlen_i. clear Hlen_i. intros heights Hlen_h HlenG.
    assert (Hlen : length G = length heights) by lia. clear Hlen_h HlenG.
    revert heights Hlen. induction Hmode as [|g G Hg _ IH]; intros [|nh heights] Hlen;
      try discriminate; [reflexivity|].
    cbn [zip_with map]. unfold resized_image at 1. cbn [im_mode im_size].
    rewrite Hg, IH; [reflexivity|]. now injection Hlen.
Qed.

End FilterOrder.

(** ** [main] *)

Section MainFacts.

Context {E : Externals} {D : DriverExternals}.

(** X13: [main] refuses two kinds of command lines before it touches
    any file: [--quality] together with a destination that ends in
    [.pdf] in any case, and, for any other destination, a number of
    source files that is not one. *)
Theorem main_usage_errors (args : cli_args) (w : world) :
  (forall pre q,
      PyStr.lower (arg_dst args) = pre +:+ ".pdf" -> arg_quality args = Some q ->
      main args w = (Raise (ValueError "--quality does not apply to PDF"), w)) /\
  (has_extension (arg_dst args) [".pdf"] = false ->
   length (arg_src args) <> 1%nat ->
   main args w
   = (Raise (ValueError "can only supply one source file when converting HEIF to JPEG"),
      w)).
Proof.
  split.
  - intros pre q Hdst Hq. unfold main.
    assert (Hpdf : has_extension (arg_dst args) [".pdf"] = true).
    { unfold has_extension. cbn [existsb]. rewrite orb_false_r.
      apply endswith_spec. now exists pre. }
    now rewrite Hpdf, Hq.
  - intros Hpdf Hlen. unfold main. rewrite Hpdf.
    apply Nat.eqb_neq in Hlen. now rewrite Hlen.
Qed.

Lemma load_heif_ok (file : string) (im : image) (w : world) :
  has_extension file [".heic"; ".heif"] = true -> decoded file = Ok im ->
  load_heif file w
  = (Ok (length (heap w)),
     {| heap := heap w ++ [im]; trace := trace w ++ [EvHeifRead file];
        exit_stack := exit_stack w |}).
Proof.
  intros Hheif Hdec. pose proof (load_one_ok file im w Hdec) as H.
  unfold load_event in H. now rewrite Hheif in H.
Qed.

Lemma open_and_load_ok (file : string) (im : image) (w : world) :
  pil_open file = Ok im -> pil_load_error im = None ->
  open_and_load file w
  = (Ok (length (heap w)),
     {| heap := heap w ++ [im];
        trace := trace w ++ [EvOpen file; EvClose (length (heap w))];
        exit_stack := exit_stack w |}).
Proof.
  intros Hopen Hload. unfold open_and_load, open, load, bind, emit, lift, alloc, deref.
  rewrite Hopen. cbn [heap trace exit_stack].
  rewrite list_lookup_middle by reflexivity. rewrite Hload. unfold ret.
  cbn [heap trace exit_stack]. now rewrite <- app_assoc.
Qed.

(** X14: one source file and a destination that is no PDF.  The file
    is decoded, through pyheif when its name ends in [.heif] or
    [.heic]; a file that Pillow opened is loaded and closed before
    anything is written; with [--grayscale] the image is converted to
    [L]; then there is one [save] to the destination, with no format
    given, so that the extension of the destination chooses the
    encoder, and with [quality] set to the text given on the command
    line, or to the int 75 when none was given. *)
Theorem main_single_image (args : cli_args) (file : string) (im : image)
    (data : pixels) (w : world) :
  arg_src args = [file] ->
  has_extension (arg_dst args) [".pdf"] = false ->
  decoded file = Ok im ->
  (has_extension file [".heic"; ".heif"] = false -> pil_load_error im = None) ->
  (arg_grayscale args = true -> pil_convert im "L" = Ok data) ->
  let source := length (heap w) in
  let objects := im :: (if arg_grayscale args then [converted_image im "L" data] else []) in
  let events :=
    load_event file
      :: (if has_extension file [".heic"; ".heif"] then [] else [EvClose source]) in
  let call :=
    {| sv_image := if arg_grayscale args then S source else source;
       sv_fp := arg_dst args; sv_format := None;
       sv_params :=
         {["quality" := match arg_quality args with
                        | Some q => VStr q
                        | None => VInt 75
                        end]} |} in
  let before_save :=
    {| heap := heap w ++ objects; trace := trace w ++ events;
       exit_stack := exit_stack w |} in
  main args w
  = (match pil_save_error before_save call with Some e => Raise e | None => Ok tt end,
     {| heap := heap w ++ objects; trace := trace w ++ events ++ [EvSave call];
        exit_stack := exit_stack w |}) /\
  Pillow.encoder call = Pillow.format_of_extension (arg_dst args).
Proof.
  intros Hsrc Hdst Hdec Hload Hconv source objects events call before_save.
  split; [|reflexivity].
  unfold main. rewrite Hdst, Hsrc. cbn [length Nat.eqb negb].
  rewrite heif_suffixes_either_order.
  assert (Hloaded :
    (if has_extension file [".heic"; ".heif"] then load_heif file
     else open_and_load file) w
    = (Ok source, {| heap := heap w ++ [im]; trace := trace w ++ events;
                     exit_stack := exit_stack w |})).
  { unfold events, load_event.
    destruct (has_extension file [".heic"; ".heif"]) eqn:Hheif.
    - now apply load_heif_ok.
    - apply open_and_load_ok; [|now apply Hload].
      unfold decoded in Hdec. now rewrite Hheif in Hdec. }
  rewrite (bind_ok _ _ _ _ _ Hloaded).
  unfold objects, call, before_save. clear Hloaded.
  destruct (arg_grayscale args) eqn:Hgray.
  - set (w1 := {| heap := heap w ++ [im]; trace := trace w ++ events;
                  exit_stack := exit_stack w |}).
    assert (Hl : heap w1 !! source = Some im)
      by (unfold w1; cbn [heap]; now apply list_lookup_middle).
    rewrite (bind_ok _ _ _ _ _ (convert_ok source im "L" data w1 Hl (Hconv eq_refl))).
    unfold w1. cbn [heap trace exit_stack]. rewrite length_app. cbn [length].
    replace (length (heap w) + 1)%nat with (S source) by (unfold source; lia).
    unfold image_save. cbn [heap trace exit_stack].
    rewrite <- !app_assoc. cbn [app].
    now destruct (pil_save_error _ _).
  - rewrite bind_ret_l. unfold image_save. cbn [heap trace exit_stack].
    rewrite <- !app_assoc.
    now destruct (pil_save_error _ _).
Qed.

(** X15: a source that Pillow opens but cannot load ends [main] with
    the exception of [load]; the image is closed on that way out too,
    and nothing is written. *)
Theorem main_load_failure_closes (args : cli_args) (file : string) (im : image)
    (e : exn) (w : world) :
  arg_src args = [file] ->
  has_extension (arg_dst args) [".pdf"] = false ->
  has_extension file [".heif"; ".heic"] = false ->
  pil_open file = Ok im -> pil_load_error im = Some e ->
  main args w
  = (Raise e,
     {| heap := heap w ++ [im];
        trace := trace w ++ [EvOpen file; EvClose (length (heap w))];
        exit_stack := exit_stack w |}).
Proof.
  intros Hsrc Hdst Hheif Hopen Hload.
  unfold main. rewrite Hdst, Hsrc. cbn [length Nat.eqb negb]. rewrite Hheif.
  apply bind_raise.
  unfold open_and_load, open, load, bind, emit, lift, alloc, deref.
  rewrite Hopen. cbn [heap trace exit_stack].
  rewrite list_lookup_middle by reflexivity. rewrite Hload. unfold raise.
  cbn [heap trace exit_stack]. now rewrite <- app_assoc.
Qed.

End MainFacts.

Lemma main_usage_errors_witness :
  main (E := sample_externals) (D := sample_driver_externals)
    {| arg_src := ["a.jpg"]; arg_dst := "Out.PDF"; arg_quality := Some "90";
       arg_grayscale := false; arg_adjust_widths := false |} empty_world
  = (Raise (ValueError "--quality does not apply to PDF"), empty_world) /\
  main (E := sample_externals) (D := sample_driver_externals)
    {| arg_src := ["a.heic"; "b.heic"]; arg_dst := "out.jpg"; arg_quality := None;
       arg_grayscale := false; arg_adjust_widths := false |} empty_world
  = (Raise (ValueError "can only supply one source file when converting HEIF to JPEG"),
     empty_world).
Proof.
  split.
  - apply (proj1 (main_usage_errors (E := sample_externals)
                    (D := sample_driver_externals) _ empty_world) "out" "90");
      reflexivity.
  - apply (proj2 (main_usage_errors (E := sample_externals)
                    (D := sample_driver_externals) _ empty_world));
      [reflexivity | discriminate].
Defined.


(** ** [main] with a PDF destination and both filters *)

Section MainPdf.

Context {E : Externals} {D : DriverExternals}.

Lemma modes_and_sizes_heap (w w' : world) (refs : list ref) :
  heap w = heap w' -> modes_and_sizes w refs = modes_and_sizes w' refs.
Proof. unfold modes_and_sizes. now intros ->. Qed.

(** X16: from the command line to the pages.  With a destination that
    ends in [.pdf], no [--quality] and both [--adjust-widths] and
    [--grayscale], when the files decode to pages of positive width
    and Pillow accepts the resizes and converts to [L], [main] issues
    one [save] to the destination, in the format PDF, with as many
    pages as source files; every page has the mode [L] and the least
    width of the decoded files, and the i-th page has the height
    computed from the size of the i-th file. *)
Theorem main_pdf_adjusted_grayscale (args : cli_args) (file : string)
    (files : list string) (im : image) (ims : list image) (w : world) :
  arg_src args = file :: files ->
  has_extension (arg_dst args) [".pdf"] = true ->
  arg_quality args = None ->
  arg_adjust_widths args = true -> arg_grayscale args = true ->
  Forall2 (fun file im => decoded file = Ok im) (file :: files) (im :: ims) ->
  Forall (fun im => 0 < width im /\ 0 <= height im < 2 ^ 53) (im :: ims) ->
  (forall im, exists data, pil_convert im "L" = Ok data) ->
  (forall im' min_width nh,
      In im' (im :: ims) -> py_min (map width (im :: ims)) = Ok min_width ->
      new_height_of min_width (width im') (height im') = Ok nh ->
      pil_resize_error im' (min_width, nh) LANCZOS = None) ->
  exists min_width heights call others final,
    py_min (map width (im :: ims)) = Ok min_width /\
    Forall2 (fun im nh => new_height_of min_width (width im) (height im) = Ok nh)
      (im :: ims) heights /\
    snd (main args w) = final /\
    In (EvSave call) (trace final) /\
    sv_fp call = arg_dst args /\ sv_format call = Some "PDF" /\
    sv_params call
    = <["save_all" := VBool true]> (<["append_images" := VImages others]> ∅) /\
    length (sv_image call :: others) = length (file :: files) /\
    modes_and_sizes final (sv_image call :: others)
    = map (fun nh => Some ("L", (min_width, nh))) heights.
Proof.
  intros Hsrc Hdst Hq Hadj Hgray Hdec Hsizes Hconv Hpillow.
  destruct (py_min_positive im ims) as (min_width & Hmin & Hmw).
  { eapply Forall_impl; [exact Hsizes|]. now intros im' (Hp & _). }
  destruct (bounded_heights_exist min_width (im :: ims)) as [heights Hheights].
  { rewrite Forall_forall in *. intros im' Him. split; [now apply Hmw|].
    now apply Hsizes. }
  assert (Hresize : Forall2 (fun im nh =>
                      new_height_of min_width (width im) (height im) = Ok nh /\
                      pil_resize_error im (min_width, nh) LANCZOS = None)
                      (im :: ims) heights).
  { apply Forall2_same_length_lookup. split; [eapply Forall2_length; exact Hheights|].
    intros i im' nh Him Hnh.
    destruct (Forall2_lookup_lr _ _ _ _ _ _ Hheights Him Hnh) as [Hh _].
    split; [exact Hh|]. apply Hpillow; [|exact Hmin | exact Hh].
    apply list_elem_of_In. eapply list_elem_of_lookup_2. exact Him. }
  set (R := zip_with (fun im nh => resized_image im (min_width, nh) LANCZOS)
              (im :: ims) heights).
  destruct (conversions_exist R Hconv) as [datas Hdatas].
  (* loading *)
  assert (Hlen : length (file :: files) = length (im :: ims))
    by (eapply Forall2_length; exact Hdec).
  pose proof (load_images_ok (file :: files) (im :: ims) [] (enter_exit_stack w) Hdec)
    as Hload.
  cbn [heap trace exit_stack enter_exit_stack app] in Hload.
  set (w1 := {| heap := heap w ++ im :: ims;
                trace := trace w ++ map load_event (file :: files);
                exit_stack := rev (entered (length (heap w)) (file :: files)) ++ [] |})
    in Hload.
  (* the filters *)
  assert (Hims1 : Forall2 (fun r im => heap w1 !! r = Some im)
                    (seq (length (heap w)) (length (file :: files))) (im :: ims)).
  { unfold w1. cbn [heap]. rewrite Hlen. apply fresh_lookup. }
  destruct (adjust_then_grayscale _ (im :: ims) heights datas min_width LANCZOS w1
              Hims1 Hmin Hresize Hdatas) as [Hrun Hmodes].
  fold R in Hrun, Hmodes. rewrite length_seq in Hrun, Hmodes.
  set (C := zip_with (fun im data => converted_image im "L" data) R datas) in *.
  set (first := length (heap w1 ++ R)) in *.
  set (w2 := {| heap := (heap w1 ++ R) ++ C; trace := trace w1;
                exit_stack := exit_stack w1 |}) in *.
  set (others := seq (S first) (length files)).
  set (call := {| sv_image := first; sv_fp := arg_dst args; sv_format := Some "PDF";
                  sv_params :=
                    <["save_all" := VBool true]>
                      (<["append_images" := VImages others]> ∅) |}).
  exists min_width, heights, call, others.
  eexists. split; [exact Hmin|]. split.
  { eapply Forall2_impl; [exact Hheights|]. now intros im' nh [Hh _]. }
  assert (Hmain :
    main args w
    = leave_exit_stack (exit_stack w)
        (match pil_save_error w2 call with Some e => Raise e | None => Ok tt end,
         {| heap := heap w2; trace := trace w2 ++ [EvSave call];
            exit_stack := exit_stack w2 |})).
  { unfold main. rewrite Hdst, Hq, Hadj, Hgray, Hsrc. cbn [app].
    unfold images_to_pdf.
    rewrite (bind_ok _ _ w w tt)
      by (apply check_reserved_absent; apply lookup_empty).
    unfold with_exit_stack. f_equal.
    rewrite (bind_ok _ _ _ _ _ Hload). rewrite (bind_ok _ _ _ _ _ Hrun).
    cbn [length seq save_pdf]. fold others.
    unfold bind, lift. rewrite merge_keywords_fresh by apply lookup_empty.
    unfold image_save. fold call. now destruct (pil_save_error w2 call). }
  rewrite Hmain, leave_exit_stack_spec. cbn [snd].
  split; [reflexivity|]. cbn [trace heap exit_stack].
  split; [apply in_or_app; left; apply in_or_app; right; now left|].
  split; [reflexivity|]. split; [reflexivity|]. split; [reflexivity|].
  split; [unfold others; cbn [length]; now rewrite length_seq|].
  rewrite <- Hmodes. apply modes_and_sizes_heap. reflexivity.
Qed.

End MainPdf.

(** ** A second pass of [adjust_widths] *)

Section SecondPass.

Context {E : Externals}.

(** X8: on pages that all have the same positive width, [adjust_widths]
    changes no size: every output is the input resized to its own
    size, so the outputs have, page by page, the modes and sizes of the
    inputs. *)
Theorem adjust_widths_equal_widths (images : list ref) (ims : list image)
    (common_width : Z) (resample : resampling) (w : world) :
  images <> [] -> 0 < common_width ->
  Forall2 (fun r im => heap w !! r = Some im) images ims ->
  Forall (fun im => width im = common_width /\ 0 <= height im < 2 ^ 53 /\
                    pil_resize_error im (im_size im) resample = None) ims ->
  let new_images := seq (length (heap w)) (length images) in
  let w' := {| heap := heap w ++
                       map (fun im => resized_image im (im_size im) resample) ims;
               trace := trace w; exit_stack := exit_stack w |} in
  adjust_widths images resample w = (Ok new_images, w') /\
  modes_and_sizes w' new_images = modes_and_sizes w images.
Proof.
  intros Hne Hpos Hims Hsame new_images w'. split.
  - now apply adjust_widths_equal_widths_ok with (common_width := common_width).
  - rewrite (modes_and_sizes_lookup w images ims Hims).
    pose proof (modes_and_sizes_fresh (heap w)
                  (map (fun im => resized_image im (im_size im) resample) ims)
                  (trace w) (exit_stack w)) as Hfresh.
    rewrite length_map, <- (Forall2_length _ _ _ Hims) in Hfresh.
    unfold w', new_images. rewrite Hfresh. now rewrite map_map.
Qed.

(** X17: a second pass changes nothing more.  When the first pass of
    [adjust_widths] succeeds on pages of positive width and Pillow
    accepts a resize of an image to its own size, [adjust_widths] on the
    output of [adjust_widths] succeeds and gives pages of the modes and
    sizes that the first pass gave. *)
Theorem adjust_widths_twice (images : list ref) (ims : list image)
    (resample : resampling) (w : world) :
  images <> [] ->
  Forall2 (fun r im => heap w !! r = Some im) images ims ->
  Forall (fun im => 0 < width im /\ 0 <= height im < 2 ^ 53) ims ->
  (forall im min_width nh,
      In im ims -> py_min (map width ims) = Ok min_width ->
      new_height_of min_width (width im) (height im) = Ok nh ->
      pil_resize_error im (min_width, nh) resample = None) ->
  (forall im, pil_resize_error im (im_size im) resample = None) ->
  exists once w1 twice w2,
    adjust_widths images resample w = (Ok once, w1) /\
    run_filters [fun images => adjust_widths images resample;
                 fun images => adjust_widths images resample] images w
    = (Ok twice, w2) /\
    modes_and_sizes w2 twice = modes_and_sizes w1 once.
Proof.
  intros Hne Hims Hsizes Hpillow Hsame.
  destruct ims as [|im0 ims0];
    [apply Forall2_nil_inv_r in Hims; congruence|].
  set (ims := im0 :: ims0) in *.
  destruct (py_min_positive im0 ims0) as (min_width & Hmin & Hmw).
  { eapply Forall_impl; [exact Hsizes|]. now intros im (Hp & _). }
  fold ims in Hmin, Hmw.
  destruct (bounded_heights_exist min_width ims) as [heights Hheights].
  { rewrite Forall_forall in *. intros im Him. split; [now apply Hmw|].
    now apply Hsizes. }
  assert (Hlen_h : length ims = length heights) by (eapply Forall2_length; exact Hheights).
  assert (Hlen_i : length images = length ims) by (eapply Forall2_length; exact Hims).
  assert (Hresize : Forall2 (fun im nh =>
                      new_height_of min_width (width im) (height im) = Ok nh /\
                      pil_resize_error im (min_width, nh) resample = None) ims heights).
  { apply Forall2_same_length_lookup. split; [exact Hlen_h|].
    intros i im nh Him Hnh.
    destruct (Forall2_lookup_lr _ _ _ _ _ _ Hheights Him Hnh) as [Hh _].
    split; [exact Hh|]. apply Hpillow; [|exact Hmin | exact Hh].
    apply list_elem_of_In. eapply list_elem_of_lookup_2. exact Him. }
  pose proof (adjust_widths_ok images ims heights min_width resample w Hims Hmin Hresize)
    as Hfirst.
  set (R := zip_with (fun im nh => resized_image im (min_width, nh) resample) ims heights)
    in *.
  assert (HlenR : length R = length images)
    by (unfold R; rewrite length_zip_with; lia).
  set (w1 := {| heap := heap w ++ R; trace := trace w; exit_stack := exit_stack w |}) in *.
  (* the pages of the first pass have one width and heights of floats *)
  assert (HR : Forall (fun im => width im = min_width /\ 0 <= height im < 2 ^ 53 /\
                                 pil_resize_error im (im_size im) resample = None) R).
  { apply Forall_lookup_2. intros i r Hr. unfold R in Hr.
    rewrite lookup_zip_with in Hr.
    destruct (ims !! i) as [im|] eqn:Him; [|discriminate Hr].
    destruct (heights !! i) as [nh|] eqn:Hnh; [|discriminate Hr].
    cbn in Hr. injection Hr as <-.
    destruct (Forall2_lookup_lr _ _ _ _ _ _ Hheights Him Hnh) as [_ Hb].
    rewrite Forall_forall in Hsizes.
    destruct (Hsizes im ltac:(eapply list_elem_of_lookup_2; exact Him)) as [_ Hh].
    repeat split; [cbn; lia | cbn; lia | apply Hsame]. }
  assert (Hmw_pos : 0 < min_width).
  { rewrite Forall_forall in Hmw. destruct (Hmw im0) as [Hp _]; [left|exact Hp]. }
  assert (Hsecond := adjust_widths_equal_widths_ok (seq (length (heap w)) (length images))
                       R min_width resample w1).
  rewrite length_seq in Hsecond.
  assert (Hrun : run_filters [fun images => adjust_widths images resample;
                              fun images => adjust_widths images resample] images w
                 = (Ok (seq (length (heap w1)) (length images)),
                    {| heap := heap w1 ++
                               map (fun im => resized_image im (im_size im) resample) R;
                       trace := trace w1; exit_stack := exit_stack w1 |})).
  { cbn [run_filters]. rewrite (bind_ok _ _ _ _ _ Hfirst). rewrite bind_ret_r.
    apply Hsecond; [|exact Hmw_pos | | exact HR].
    - destruct images; [congruence | discriminate].
    - unfold w1. cbn [heap]. rewrite <- HlenR. apply fresh_lookup. }
  eexists _, _, _, _. split; [exact Hfirst|]. split; [exact Hrun|].
  pose proof (modes_and_sizes_fresh (heap w1)
                (map (fun im => resized_image im (im_size im) resample) R)
                (trace w1) (exit_stack w1)) as H2.
  rewrite length_map, HlenR in H2. rewrite H2.
  pose proof (modes_and_sizes_fresh (heap w) R (trace w) (exit_stack w)) as H1.
  rewrite HlenR in H1. fold w1 in H1. rewrite H1.
  now rewrite map_map.
Qed.

End SecondPass.

Lemma adjust_widths_twice_witness :
  exists once w1 twice w2,
    adjust_widths (E := sample_externals) [0; 1; 2]%nat LANCZOS (world_of three_pages)
    = (Ok once, w1) /\
    run_filters [fun images => adjust_widths (E := sample_externals) images LANCZOS;
                 fun images => adjust_widths (E := sample_externals) images LANCZOS]
      [0; 1; 2]%nat (world_of three_pages) = (Ok twice, w2) /\
    modes_and_sizes w2 twice = modes_and_sizes w1 once.
Proof.
  apply (adjust_widths_twice (E := sample_externals) [0; 1; 2]%nat three_pages LANCZOS
           (world_of three_pages)).
  - discriminate.
  - repeat constructor.
  - repeat constructor; cbn; lia.
  - reflexivity.
  - reflexivity.
Defined.

(** ** The statements above on concrete inputs *)

Lemma load_images_in_order_witness :
  fst (load_images (E := sample_externals) ["a.jpg"; "b.heic"; "c.png"] [] empty_world)
  = Ok [0; 1; 2]%nat.
Proof.
  destruct (load_images_in_order (E := sample_externals) ["a.jpg"; "b.heic"; "c.png"]
              [{| im_mode := "RGB"; im_size := (300, 200); im_data := FileData "a.jpg" |};
               {| im_mode := "RGB"; im_size := (4, 3);
                  im_data := RawData [] "raw" "RGB" 12 |};
               {| im_mode := "RGB"; im_size := (300, 200); im_data := FileData "c.png" |}]
              empty_world) as [Hload _].
  - repeat constructor.
  - now rewrite Hload.
Defined.

Lemma images_to_pdf_load_failure_closes_witness :
  images_to_pdf (E := unreadable_externals) ["a.jpg"; "b.heic"; "bad.jpg"; "c.png"]
    "out.pdf" None ∅ empty_world
  = (Raise (OSError "cannot identify image file"),
     {| heap := [{| im_mode := "RGB"; im_size := (300, 200);
                    im_data := FileData "a.jpg" |};
                 {| im_mode := "RGB"; im_size := (4, 3);
                    im_data := RawData [] "raw" "RGB" 12 |}];
        trace := [EvOpen "a.jpg"; EvHeifRead "b.heic"; EvOpen "bad.jpg"; EvClose 0%nat];
        exit_stack := [] |}).
Proof.
  apply (images_to_pdf_load_failure_closes (E := unreadable_externals)
           ["a.jpg"; "b.heic"] ["c.png"] "bad.jpg" _ _ "out.pdf" None ∅ empty_world).
  - reflexivity.
  - reflexivity.
  - repeat constructor.
  - reflexivity.
Defined.


Lemma images_to_pdf_no_page_left_witness :
  fst (images_to_pdf (E := sample_externals) ["a.jpg"; "b.png"] "out.pdf"
         (Some [drop_all_pages]) ∅ empty_world)
  = Raise (IndexError "list index out of range").
Proof.
  rewrite (images_to_pdf_no_page_left (E := sample_externals) "a.jpg" "out.pdf"
             ["b.png"] [drop_all_pages] ∅ empty_world
             (snd (load_images (E := sample_externals) ["a.jpg"; "b.png"] []
                     empty_world))
             (snd (load_images (E := sample_externals) ["a.jpg"; "b.png"] []
                     empty_world))
             [0; 1]%nat); reflexivity.
Defined.

Lemma adjust_widths_equal_widths_witness :
  adjust_widths (E := sample_externals) [0; 1]%nat BICUBIC
    (world_of [sample_image 300 200; sample_image 300 450])
  = (Ok [2; 3]%nat,
     {| heap := [sample_image 300 200; sample_image 300 450] ++
                map (fun im => resized_image im (im_size im) BICUBIC)
                  [sample_image 300 200; sample_image 300 450];
        trace := []; exit_stack := [] |}).
Proof.
  apply (adjust_widths_equal_widths (E := sample_externals) [0; 1]%nat
           [sample_image 300 200; sample_image 300 450] 300 BICUBIC
           (world_of [sample_image 300 200; sample_image 300 450])).
  - discriminate.
  - lia.
  - repeat constructor.
  - repeat constructor; cbn; lia.
Defined.

Lemma adjust_widths_zero_width_fails_witness :
  exists e w',
    adjust_widths (E := sample_externals) [0; 1]%nat LANCZOS
      (world_of [sample_image 4 3; sample_image 0 7])
    = (Raise e, w').
Proof.
  apply (adjust_widths_zero_width_fails (E := sample_externals) [0; 1]%nat
           [sample_image 4 3; sample_image 0 7] LANCZOS
           (world_of [sample_image 4 3; sample_image 0 7])).
  - repeat constructor.
  - repeat constructor; cbn; lia.
  - right; left; reflexivity.
Defined.

Lemma adjust_widths_never_enlarges_witness :
  exists min_width heights,
    py_min (map width three_pages) = Ok min_width /\
    Forall2 (fun im nh => 0 < min_width <= width im /\ 0 <= nh <= height im /\
                          new_height_of min_width (width im) (height im) = Ok nh)
      three_pages heights.
Proof.
  destruct (adjust_widths_never_enlarges (E := sample_externals) [0; 1; 2]%nat
              three_pages LANCZOS (world_of three_pages))
    as (min_width & heights & Hmin & _ & Hbounds).
  - discriminate.
  - repeat constructor.
  - repeat constructor; cbn; lia.
  - reflexivity.
  - now exists min_width, heights.
Defined.

Lemma to_grayscale_keeps_sizes_witness :
  modes_and_sizes
    (snd (to_grayscale (D := sample_driver_externals)
            [0; 1; 2]%nat (world_of three_pages)))
    [3; 4; 5]%nat
  = [Some ("L", (300, 200)); Some ("L", (400, 300)); Some ("L", (500, 250))].
Proof.
  destruct (to_grayscale_keeps_sizes
              (D := sample_driver_externals) [0; 1; 2]%nat three_pages
              (map im_data three_pages) (world_of three_pages))
    as (Hrun & Hmodes & _).
  - repeat constructor.
  - repeat constructor.
  - rewrite Hrun. exact Hmodes.
Defined.

Lemma grayscale_and_adjust_widths_commute_witness :
  exists out1 w1 out2 w2,
    run_filters
      [fun images => adjust_widths (E := sample_externals) images LANCZOS;
       to_grayscale (D := sample_driver_externals)]
      [0; 1; 2]%nat (world_of three_pages) = (Ok out1, w1) /\
    run_filters
      [to_grayscale (D := sample_driver_externals);
       fun images => adjust_widths (E := sample_externals) images LANCZOS]
      [0; 1; 2]%nat (world_of three_pages) = (Ok out2, w2) /\
    modes_and_sizes w1 out1 = modes_and_sizes w2 out2.
Proof.
  destruct (grayscale_and_adjust_widths_commute (E := sample_externals)
              (D := sample_driver_externals) [0; 1; 2]%nat three_pages LANCZOS
              (world_of three_pages))
    as (mw & hs & out1 & w1 & out2 & w2 & _ & _ & H1 & H2 & M1 & M2).
  - discriminate.
  - repeat constructor.
  - repeat constructor; cbn; lia.
  - intros im. eexists. reflexivity.
  - reflexivity.
  - reflexivity.
  - exists out1, w1, out2, w2. repeat split; [exact H1 | exact H2 | congruence].
Defined.

Lemma main_single_image_witness :
  trace (snd (main (E := sample_externals) (D := sample_driver_externals)
                {| arg_src := ["scan.JPG"]; arg_dst := "scan.png"; arg_quality := None;
                   arg_grayscale := true; arg_adjust_widths := false |} empty_world))
  = [EvOpen "scan.JPG"; EvClose 0%nat;
     EvSave {| sv_image := 1%nat; sv_fp := "scan.png"; sv_format := None;
               sv_params := {["quality" := VInt 75]} |}].
Proof.
  destruct (main_single_image (E := sample_externals) (D := sample_driver_externals)
              {| arg_src := ["scan.JPG"]; arg_dst := "scan.png"; arg_quality := None;
                 arg_grayscale := true; arg_adjust_widths := false |}
              "scan.JPG"
              {| im_mode := "RGB"; im_size := (300, 200); im_data := FileData "scan.JPG" |}
              (FileData "scan.JPG") empty_world) as [Hmain _];
    [reflexivity .. |].
  now rewrite Hmain.
Defined.

Lemma main_load_failure_closes_witness :
  main (E := sample_externals) (D := truncated_driver_externals)
    {| arg_src := ["scan.jpg"]; arg_dst := "scan.png"; arg_quality := None;
       arg_grayscale := false; arg_adjust_widths := false |} empty_world
  = (Raise (OSError "image file is truncated"),
     {| heap := [{| im_mode := "RGB"; im_size := (300, 200);
                    im_data := FileData "scan.jpg" |}];
        trace := [EvOpen "scan.jpg"; EvClose 0%nat]; exit_stack := [] |}).
Proof.
  rewrite (main_load_failure_closes (E := sample_externals)
             (D := truncated_driver_externals) _ "scan.jpg"
             {| im_mode := "RGB"; im_size := (300, 200); im_data := FileData "scan.jpg" |}
             (OSError "image file is truncated") empty_world); reflexivity.
Defined.

Lemma main_pdf_adjusted_grayscale_witness :
  exists call final,
    snd (main (E := sample_externals) (D := sample_driver_externals)
           {| arg_src := ["a.jpg"; "b.heic"]; arg_dst := "album.pdf";
              arg_quality := None; arg_grayscale := true;
              arg_adjust_widths := true |} empty_world) = final /\
    In (EvSave call) (trace final) /\ sv_format call = Some "PDF".
Proof.
  destruct (main_pdf_adjusted_grayscale (E := sample_externals)
              (D := sample_driver_externals)
              {| arg_src := ["a.jpg"; "b.heic"]; arg_dst := "album.pdf";
                 arg_quality := None; arg_grayscale := true;
                 arg_adjust_widths := true |}
              "a.jpg" ["b.heic"]
              {| im_mode := "RGB"; im_size := (300, 200); im_data := FileData "a.jpg" |}
              [{| im_mode := "RGB"; im_size := (4, 3);
                  im_data := RawData [] "raw" "RGB" 12 |}]
              empty_world)
    as (mw & hs & call & others & final & _ & _ & Hfinal & Hin & _ & Hfmt & _);
    try reflexivity.
  - repeat constructor.
  - repeat constructor; cbn; lia.
  - intros im. eexists. reflexivity.
  - now exists call, final.
Defined.
